(** * The MP3 player of the Pomodoro screen: playlist store and playback session

    A shallow embedding of the MP3-player part of the [Index] component
    (the screen with the Pomodoro timer and the MP3 player; the stand-alone
    player [App] of Gym_app_mobile/app.js has the same functions under the
    names [playAudio], [pauseAudio], [stopAudio], [pickAudioFile],
    [removeAudio]).

    The component is a React function component: its state lives in
    [useState] cells, its handlers are closures over the values of one
    render, and its work is done by asynchronous calls to the platform
    (expo-av, expo-file-system, expo-document-picker, AsyncStorage).  The
    embedding keeps these three things apart:

    - [Comp] is the content of the [useState] cells;
    - [World] is the platform: files, the durable key-value store, the
      sounds the decoder holds, and a log of the calls made to it;
    - a handler takes the render it closes over as an explicit argument
      ([r : Comp]) and is a computation in the monad [M] that threads
      [World * Comp] and may throw. *)

From stdpp Require Import gmap strings list fin_maps pretty.

Set Default Proof Using "Type".

(** ** Data *)

(** A playlist entry, [{ name, uri }]. *)
Record Track := { name : string; uri : string }.

(** An asset returned by the document picker, [{ name, uri }]. *)
Record Asset := { asset_name : string; asset_uri : string }.

(** The result of [DocumentPicker.getDocumentAsync]: [result.canceled] and
    [result.assets] (which may be absent). *)
Record DocumentResult := { canceled : bool; assets : option (list Asset) }.

(** An [Audio.Sound] object.  [key] is the identity of the object;
    [loaded_from] is the file the decoder was asked to load for it, which
    the decoder knows and the object does not show. *)
Record Sound := { key : nat; loaded_from : string }.

(** [sound._uri], which the component reads to know which track a sound
    plays.  An [Audio.Sound] has no property of that name (it keeps
    [_loaded], [_key], [_onPlaybackStatusUpdate] and the like), so the read
    gives [undefined] on every sound. *)
Definition _uri (s : Sound) : option string := None.

(** A playback status handed to [onPlaybackStatusUpdate]: the status of a
    sound that is not loaded, [{ isLoaded: false }], or the status of a
    loaded sound with its position, its duration and [didJustFinish]. *)
Inductive Status :=
| StatusUnloaded
| StatusLoaded (position duration : nat) (finished : bool).

(** [status.positionMillis], [status.durationMillis] and
    [status.didJustFinish]; the unloaded status has none of them, and an
    absent [didJustFinish] is falsy. *)
Definition positionMillis (status : Status) : option nat :=
  match status with
  | StatusLoaded position _ _ => Some position
  | StatusUnloaded => None
  end.

Definition durationMillis (status : Status) : option nat :=
  match status with
  | StatusLoaded _ duration _ => Some duration
  | StatusUnloaded => None
  end.

Definition didJustFinish (status : Status) : bool :=
  match status with
  | StatusLoaded _ _ finished => finished
  | StatusUnloaded => false
  end.

(** The alerts of [showMp3CustomAlert(title, message)], one constructor per
    call site; the argument is the file name spliced into the message. *)
Inductive Alert :=
| AlertLoadError             (* "Erro de Carregamento" *)
| AlertSaveError             (* "Erro ao Salvar Musica" *)
| AlertPlayError             (* "Erro de Reproducao" *)
| AlertPauseError            (* "Erro ao Pausar" *)
| AlertStopError             (* "Erro ao Parar" *)
| AlertAdded (fileName : string)      (* "Sucesso!" ... adicionado *)
| AlertDuplicate (fileName : string)  (* "Aviso" ... ja esta na sua playlist *)
| AlertAddError              (* "Erro ao Adicionar Musica" *)
| AlertRemoved (fileName : string)    (* "Sucesso!" ... removido *)
| AlertRemoveError.          (* "Erro ao Remover Musica" *)

(** The [useState] cells of the MP3 player.  [playlist_ref] is the identity
    of the array held in [playlist]: React compares dependencies with
    [Object.is], so an effect that depends on [playlist] runs again exactly
    when a different array object was installed. *)
Record Comp := {
  playlist : list Track;
  playlist_ref : nat;
  currentMp3Sound : option Sound;
  isMp3Playing : bool;
  mp3PlaybackStatus : option Status;
  mp3ErrorMessage : option Alert;
  showMp3ErrorModal : bool;
  mp3Loading : bool
}.

(** The values the cells are created with. *)
Definition initialComp : Comp :=
  {| playlist := []; playlist_ref := 0; currentMp3Sound := None;
     isMp3Playing := false; mp3PlaybackStatus := None;
     mp3ErrorMessage := None; showMp3ErrorModal := false;
     mp3Loading := false |}.

(** ** The platform *)

(** What is stored under [PLAYLIST_STORAGE_KEY]: the JSON text of a list of
    tracks (what [JSON.stringify(playlist)] writes), the empty string (which
    is falsy), or a text on which [JSON.parse] or the loop over its result
    throws. *)
Inductive Stored :=
| StoredJson (l : list Track)
| StoredEmpty
| StoredMalformed.

(** An entry of the file system: a file with its content, or a directory. *)
Inductive Entry := File (content : string) | Dir.

(** The calls the component makes to the platform. *)
Inductive Call :=
| GetItem
| SetItem (v : list Track)
| GetInfo (path : string)
| MakeDirectory (path : string)
| Copy (from to : string)
| Delete (path : string)
| GetDocument
| CreateSound (itemUri : string)
| Unload (k : nat)
| Stop (k : nat)
| Pause (k : nat).

(** A sound held by the decoder, with the status callback registered for it.
    The callback is [onMp3PlaybackStatusUpdate] of the render that created
    the sound; the only thing it closes over is that render's
    [currentMp3Sound], kept here as [listener]. *)
Record Handle := { sound : Sound; listener : option Sound }.

Record World := {
  documentDirectory : string;     (* FileSystem.documentDirectory *)
  files : gmap string Entry;
  storage : option Stored;        (* None: getItem answers null *)
  live : list Handle;             (* the sounds currently loaded *)
  next_key : nat;                 (* identity of the next sound object *)
  faults : Call -> bool;          (* the calls the platform rejects *)
  log : list Call;                (* calls made so far, oldest first *)
  (* the position and the duration the decoder finds when it carries out
     an operation on a sound, by the number of calls made before it *)
  progress : nat -> nat * nat
}.

Definition AUDIO_DIR (w : World) : string := documentDirectory w +:+ "audio/".

(** ** The monad of handlers *)

Inductive Result (A : Type) :=
| Ok (a : A)
| Throw.   (* a thrown exception or a rejected promise *)
Arguments Ok {A} a.
Arguments Throw {A}.

Definition St : Type := World * Comp.

Definition M (A : Type) : Type := St -> Result A * St.

Definition ret {A} (a : A) : M A := fun s => (Ok a, s).

Definition bind {A B} (m : M A) (k : A -> M B) : M B :=
  fun s => match m s with
           | (Ok a, s') => k a s'
           | (Throw, s') => (Throw, s')
           end.

Definition throw {A} : M A := fun s => (Throw, s).

(** stdpp's monad notations: [x ← m; k] and [m ;; k]. *)
#[global] Instance M_ret : MRet M := @ret.
#[global] Instance M_bind : MBind M := fun A B k m => bind m k.

(** [try { body } catch { handler }] *)
Definition try_catch {A} (body handler : M A) : M A :=
  fun s => match body s with
           | (Ok a, s') => (Ok a, s')
           | (Throw, s') => handler s'
           end.

(** [try { body } finally { fin }]: [fin] runs either way, and an exception
    of [body] is thrown again after it. *)
Definition try_finally {A} (body : M A) (fin : M unit) : M A :=
  fun s => match body s with
           | (r, s') => match fin s' with
                        | (Ok _, s'') => (r, s'')
                        | (Throw, s'') => (Throw, s'')
                        end
           end.

(** A promise that is not awaited: its rejection is not seen by the caller. *)
Definition not_awaited {A} (m : M A) : M unit :=
  fun s => (Ok tt, snd (m s)).

Definition get_world : M World := fun s => (Ok (fst s), s).
Definition get_comp : M Comp := fun s => (Ok (snd s), s).
Definition modify_world (f : World -> World) : M unit :=
  fun s => (Ok tt, (f (fst s), snd s)).
Definition modify_comp (f : Comp -> Comp) : M unit :=
  fun s => (Ok tt, (fst s, f (snd s))).

(** ** State setters *)

Definition with_playlist (l : list Track) (c : Comp) : Comp :=
  {| playlist := l; playlist_ref := S (playlist_ref c);
     currentMp3Sound := currentMp3Sound c; isMp3Playing := isMp3Playing c;
     mp3PlaybackStatus := mp3PlaybackStatus c;
     mp3ErrorMessage := mp3ErrorMessage c;
     showMp3ErrorModal := showMp3ErrorModal c; mp3Loading := mp3Loading c |}.

Definition with_currentMp3Sound (o : option Sound) (c : Comp) : Comp :=
  {| playlist := playlist c; playlist_ref := playlist_ref c;
     currentMp3Sound := o; isMp3Playing := isMp3Playing c;
     mp3PlaybackStatus := mp3PlaybackStatus c;
     mp3ErrorMessage := mp3ErrorMessage c;
     showMp3ErrorModal := showMp3ErrorModal c; mp3Loading := mp3Loading c |}.

Definition with_isMp3Playing (b : bool) (c : Comp) : Comp :=
  {| playlist := playlist c; playlist_ref := playlist_ref c;
     currentMp3Sound := currentMp3Sound c; isMp3Playing := b;
     mp3PlaybackStatus := mp3PlaybackStatus c;
     mp3ErrorMessage := mp3ErrorMessage c;
     showMp3ErrorModal := showMp3ErrorModal c; mp3Loading := mp3Loading c |}.

Definition with_mp3PlaybackStatus (o : option Status) (c : Comp) : Comp :=
  {| playlist := playlist c; playlist_ref := playlist_ref c;
     currentMp3Sound := currentMp3Sound c; isMp3Playing := isMp3Playing c;
     mp3PlaybackStatus := o;
     mp3ErrorMessage := mp3ErrorMessage c;
     showMp3ErrorModal := showMp3ErrorModal c; mp3Loading := mp3Loading c |}.

Definition with_alert (a : Alert) (c : Comp) : Comp :=
  {| playlist := playlist c; playlist_ref := playlist_ref c;
     currentMp3Sound := currentMp3Sound c; isMp3Playing := isMp3Playing c;
     mp3PlaybackStatus := mp3PlaybackStatus c;
     mp3ErrorMessage := Some a;
     showMp3ErrorModal := true; mp3Loading := mp3Loading c |}.

Definition with_mp3Loading (b : bool) (c : Comp) : Comp :=
  {| playlist := playlist c; playlist_ref := playlist_ref c;
     currentMp3Sound := currentMp3Sound c; isMp3Playing := isMp3Playing c;
     mp3PlaybackStatus := mp3PlaybackStatus c;
     mp3ErrorMessage := mp3ErrorMessage c;
     showMp3ErrorModal := showMp3ErrorModal c; mp3Loading := b |}.

(** [setPlaylist(newArray)] *)
Definition setPlaylist (l : list Track) : M unit := modify_comp (with_playlist l).
Definition setCurrentMp3Sound (o : option Sound) : M unit :=
  modify_comp (with_currentMp3Sound o).
Definition setIsMp3Playing (b : bool) : M unit := modify_comp (with_isMp3Playing b).
Definition setMp3PlaybackStatus (o : option Status) : M unit :=
  modify_comp (with_mp3PlaybackStatus o).
Definition setMp3Loading (b : bool) : M unit := modify_comp (with_mp3Loading b).

(** [showMp3CustomAlert]: [setMp3ErrorMessage({title, message})] and
    [setShowMp3ErrorModal(true)]. *)
Definition showMp3CustomAlert (a : Alert) : M unit := modify_comp (with_alert a).

(** ** Platform calls *)

Definition with_files (f : gmap string Entry) (w : World) : World :=
  {| documentDirectory := documentDirectory w; files := f;
     storage := storage w; live := live w; next_key := next_key w;
     faults := faults w; log := log w;
     progress := progress w |}.

Definition with_storage (v : option Stored) (w : World) : World :=
  {| documentDirectory := documentDirectory w; files := files w;
     storage := v; live := live w; next_key := next_key w;
     faults := faults w; log := log w;
     progress := progress w |}.

Definition with_live (l : list Handle) (w : World) : World :=
  {| documentDirectory := documentDirectory w; files := files w;
     storage := storage w; live := l; next_key := next_key w;
     faults := faults w; log := log w;
     progress := progress w |}.

Definition with_new_sound (h : Handle) (w : World) : World :=
  {| documentDirectory := documentDirectory w; files := files w;
     storage := storage w; live := live w ++ [h]; next_key := S (next_key w);
     faults := faults w; log := log w;
     progress := progress w |}.

Definition with_log (l : list Call) (w : World) : World :=
  {| documentDirectory := documentDirectory w; files := files w;
     storage := storage w; live := live w; next_key := next_key w;
     faults := faults w; log := l;
     progress := progress w |}.

Definition record_call (c : Call) (w : World) : World :=
  with_log (log w ++ [c]) w.

(** Every call is logged when it is made, and throws when the platform
    rejects it. *)
Definition call (c : Call) : M unit :=
  fun s => if faults (fst s) c
           then (Throw, (record_call c (fst s), snd s))
           else (Ok tt, (record_call c (fst s), snd s)).

(** AsyncStorage serves its requests one at a time in the order they were
    made, so a request takes effect at the point where it is made. *)
Definition getItem : M (option Stored) :=
  call GetItem ;; w ← get_world; ret (storage w).

Definition setItem (v : list Track) : M unit :=
  call (SetItem v) ;; modify_world (with_storage (Some (StoredJson v))).

(** [FileSystem.getInfoAsync(path)], read at [.exists]. *)
Definition getInfoAsync (path : string) : M bool :=
  call (GetInfo path) ;; w ← get_world;
  ret (bool_decide (is_Some (files w !! path))).

(** [FileSystem.makeDirectoryAsync(path, { intermediates: true })] *)
Definition makeDirectoryAsync (path : string) : M unit :=
  call (MakeDirectory path) ;; w ← get_world;
  match files w !! path with
  | Some _ => ret tt
  | None => modify_world (with_files (<[path := Dir]> (files w)))
  end.

(** [FileSystem.copyAsync({ from, to })]: the destination receives the
    content of the source, replacing what was there; a missing source is an
    error. *)
Definition copyAsync (from to : string) : M unit :=
  call (Copy from to) ;; w ← get_world;
  match files w !! from with
  | Some e => modify_world (with_files (<[to := e]> (files w)))
  | None => throw
  end.

(** [FileSystem.deleteAsync(path, { idempotent: true })]: deleting what does
    not exist is not an error. *)
Definition deleteAsync (path : string) : M unit :=
  call (Delete path) ;; w ← get_world;
  modify_world (with_files (delete path (files w))).

(** [DocumentPicker.getDocumentAsync]; [answer] is what the user does. *)
Definition getDocumentAsync (answer : DocumentResult) : M DocumentResult :=
  call GetDocument ;; ret answer.

Definition isLoaded (s : Sound) (w : World) : bool :=
  bool_decide (Exists (fun h => key (sound h) = key s) (live w)).

(** The library hands a status to the callback of a sound itself, besides
    the statuses the decoder sends while it plays: the unloaded status when
    the callback is registered and when the sound is unloaded, and the new
    status when a load, a pause or a stop has been carried out.  None of
    these is a completion.  Every sound of the component is created by
    [playMp3Audio] with an [onMp3PlaybackStatusUpdate] as its callback, and
    on a status that is not a completion every such callback does the same
    one thing, whatever it closes over: [setMp3PlaybackStatus(status)]
    (see [callback_stores_progress]).  (The library drops a status equal
    to the one it handed the same callback less than 100 ms before; the
    statuses of one sound are taken to be farther apart than that.) *)
Definition report (status : Status) : M unit :=
  setMp3PlaybackStatus (Some status).

(** The status of a loaded sound as the decoder finds it now. *)
Definition found (w : World) : nat * nat := progress w (length (log w)).

(** [sound.unloadAsync()]: the decoder drops the sound, and the callback of
    the sound gets the unloaded status; on a sound that is not loaded only
    the latter happens. *)
Definition unloadAsync (s : Sound) : M unit :=
  call (Unload (key s)) ;; w ← get_world;
  modify_world (with_live (filter (fun h => key (sound h) ≠ key s) (live w))) ;;
  report StatusUnloaded.

(** [sound.stopAsync()] and [sound.pauseAsync()] are errors on a sound that
    is not loaded; on a loaded sound the callback gets the status after the
    operation (a stop rewinds to position 0). *)
Definition stopAsync (s : Sound) : M unit :=
  call (Stop (key s)) ;; w ← get_world;
  if isLoaded s w then report (StatusLoaded 0 (snd (found w)) false)
  else throw.

Definition pauseAsync (s : Sound) : M unit :=
  call (Pause (key s)) ;; w ← get_world;
  if isLoaded s w
  then report (StatusLoaded (fst (found w)) (snd (found w)) false)
  else throw.

(** [Audio.Sound.createAsync({ uri }, { shouldPlay: true }, callback)] takes
    time.  When the call is made ([createAsync_begin]) the sound object is
    created and the callback registered, which hands it the unloaded
    status.  The promise settles later ([createAsync_end]), when the
    decoder either holds the new sound, and the callback has got its
    status, or rejects. *)
Definition createAsync_begin (itemUri : string) : M unit :=
  modify_world (record_call (CreateSound itemUri)) ;;
  report StatusUnloaded.

Definition createAsync_end (itemUri : string) (callback : option Sound) : M Sound :=
  w ← get_world;
  if faults w (CreateSound itemUri) then throw
  else
    let s := {| key := next_key w; loaded_from := itemUri |} in
    modify_world (with_new_sound {| sound := s; listener := callback |}) ;;
    report (StatusLoaded (fst (found w)) (snd (found w)) false) ;;
    ret s.

(** ** The playback session *)

(** [onMp3PlaybackStatusUpdate], a [useCallback] with dependencies
    [[currentMp3Sound]]: [captured] is the [currentMp3Sound] of the render
    the callback belongs to.  [currentMp3Sound.unloadAsync()] is not
    awaited. *)
Definition onMp3PlaybackStatusUpdate (captured : option Sound) (status : Status) : M unit :=
  setMp3PlaybackStatus (Some status) ;;
  if didJustFinish status then
    setIsMp3Playing false ;;
    match captured with
    | Some s => not_awaited (unloadAsync s) ;; setCurrentMp3Sound None
    | None => ret tt
    end
  else ret tt.

(** [playMp3Audio(itemUri)] up to the point where it awaits [createAsync]:
    the load is then in flight.  The unload is outside the [try]. *)
Definition playMp3Audio_begin (r : Comp) (itemUri : string) : M unit :=
  match currentMp3Sound r with
  | Some s => unloadAsync s ;; setCurrentMp3Sound None
  | None => ret tt
  end ;;
  createAsync_begin itemUri.

(** [playMp3Audio(itemUri)] from the point where [createAsync] settles.  The
    callback passed to [createAsync] is the [onMp3PlaybackStatusUpdate] of
    the render [r] the handler belongs to. *)
Definition playMp3Audio_end (r : Comp) (itemUri : string) : M unit :=
  try_catch
    (newMp3Sound ← createAsync_end itemUri (currentMp3Sound r);
     setCurrentMp3Sound (Some newMp3Sound) ;;
     setIsMp3Playing true)
    (showMp3CustomAlert AlertPlayError ;;
     setIsMp3Playing false).

(** [playMp3Audio(itemUri)] with nothing else happening while it loads. *)
Definition playMp3Audio (r : Comp) (itemUri : string) : M unit :=
  playMp3Audio_begin r itemUri ;; playMp3Audio_end r itemUri.

Definition pauseMp3Audio (r : Comp) : M unit :=
  match currentMp3Sound r with
  | Some s =>
      if isMp3Playing r then
        try_catch
          (pauseAsync s ;; setIsMp3Playing false)
          (showMp3CustomAlert AlertPauseError)
      else ret tt
  | None => ret tt
  end.

Definition stopMp3Audio (r : Comp) : M unit :=
  match currentMp3Sound r with
  | Some s =>
      try_catch
        (stopAsync s ;;
         unloadAsync s ;;
         setCurrentMp3Sound None ;;
         setIsMp3Playing false ;;
         setMp3PlaybackStatus None)
        (showMp3CustomAlert AlertStopError)
  | None => ret tt
  end.

(** The decoder delivers [status] for the loaded sound [h]: the callback
    registered for [h] runs. *)
Definition deliver (h : Handle) (status : Status) : M unit :=
  onMp3PlaybackStatusUpdate (listener h) status.

(** The user triggers a handler: it is the handler of the render on screen,
    which closes over the current state. *)
Definition press {A} (handler : Comp -> M A) : M A :=
  fun s => handler (snd s) s.

(** ** The playlist store *)

(** The promise of an asynchronous call that has been made: [attempt m]
    makes the call and keeps how it settled; [await p] is the point where
    the caller resumes with it. *)
Definition attempt {A} (m : M A) : M (Result A) :=
  fun s => (Ok (fst (m s)), snd (m s)).

Definition await {A} (p : Result A) : M A := fun s => (p, s).

(** The loop of [loadMp3Playlist] over the parsed playlist:
    [for (const item of parsedPlaylist)], pushing the items whose file
    exists onto [validPlaylist]. *)
Fixpoint validate (parsedPlaylist validPlaylist : list Track) : M (list Track) :=
  match parsedPlaylist with
  | [] => ret validPlaylist
  | item :: rest =>
      fileInfo_exists ← getInfoAsync (uri item);
      validate rest (if (fileInfo_exists : bool)
                     then validPlaylist ++ [item]
                     else validPlaylist)
  end.

(** [loadMp3Playlist] up to its first [await]: the loading flag is raised
    and the read of the stored playlist is requested. *)
Definition loadMp3Playlist_begin : M (Result (option Stored)) :=
  setMp3Loading true ;;
  attempt getItem.

(** [loadMp3Playlist] from the point where [getItem] has settled. *)
Definition loadMp3Playlist_end (p : Result (option Stored)) : M unit :=
  try_finally
    (try_catch
       (storedPlaylist ← await p;
        match storedPlaylist with
        | Some (StoredJson parsedPlaylist) =>
            validPlaylist ← validate parsedPlaylist [];
            setPlaylist validPlaylist
        | Some StoredMalformed => throw
        | Some StoredEmpty | None => ret tt
        end)
       (showMp3CustomAlert AlertLoadError))
    (setMp3Loading false).

Definition loadMp3Playlist : M unit :=
  p ← loadMp3Playlist_begin; loadMp3Playlist_end p.

Definition saveMp3Playlist (r : Comp) : M unit :=
  try_catch
    (setItem (playlist r))
    (showMp3CustomAlert AlertSaveError).

(** The effect with dependencies [[playlist, mp3Loading]], as run for the
    render [r]. *)
Definition saveEffect (r : Comp) : M unit :=
  if negb (mp3Loading r) then saveMp3Playlist r else ret tt.

(** React runs the effect again after a render in which one of its
    dependencies differs from the previous render. *)
Definition deps_changed (prev c : Comp) : bool :=
  negb (playlist_ref prev =? playlist_ref c)
  || negb (eqb (mp3Loading prev) (mp3Loading c)).

Definition rerender (prev : Comp) : M unit :=
  fun s => if deps_changed prev (snd s) then saveEffect (snd s) s else (Ok tt, s).

(** One turn of the event loop: a piece of a handler runs, then React
    renders the state it left and runs the effects that are due. *)
Definition turn {A} (m : M A) : M A :=
  fun s => (fst (m s), snd (rerender (snd s) (snd (m s)))).

(** The effects of the first render [r], in the order they are declared:
    the load is started, then the save effect runs. *)
Definition mount_effects (r : Comp) : M (Result (option Stored)) :=
  p ← loadMp3Playlist_begin;
  saveEffect r ;;
  ret p.

(** The component is mounted and its load runs to the end. *)
Definition mount : M (Result (option Stored)) := turn (press mount_effects).

Definition startup : M unit :=
  p ← mount; turn (loadMp3Playlist_end p).

(** The updater passed to [setPlaylist] in [pickMp3File]; it runs on the
    playlist held when the update is applied.  When the destination is
    already listed it returns [prevPlaylist] itself, so no new array is
    installed. *)
Definition add_to_playlist (fileName destinationUri : string) : M unit :=
  c ← get_comp;
  let prevPlaylist := playlist c in
  if negb (bool_decide (Exists (fun item => uri item = destinationUri) prevPlaylist))
  then
    showMp3CustomAlert (AlertAdded fileName) ;;
    setPlaylist (prevPlaylist ++ [{| name := fileName; uri := destinationUri |}])
  else
    showMp3CustomAlert (AlertDuplicate fileName).

(** The [try] block of [pickMp3File]; [answer] is what the user does in the
    picker. *)
Definition pickMp3File_try (answer : DocumentResult) : M unit :=
  result ← getDocumentAsync answer;
  match canceled result, assets result with
  | false, Some (pickedAsset :: _) =>
      let fileName := asset_name pickedAsset in
      let fileUri := asset_uri pickedAsset in
      w ← get_world;
      dirInfo_exists ← getInfoAsync (AUDIO_DIR w);
      (if negb dirInfo_exists
       then makeDirectoryAsync (AUDIO_DIR w)
       else ret tt) ;;
      let destinationUri := AUDIO_DIR w +:+ fileName in
      copyAsync fileUri destinationUri ;;
      add_to_playlist fileName destinationUri
  | _, _ => ret tt
  end.

Definition pickMp3File (answer : DocumentResult) : M unit :=
  try_catch
    (pickMp3File_try answer)
    (showMp3CustomAlert AlertAddError).

(** The [try]/[catch] statement of [removeMp3Audio]. *)
Definition removeMp3Audio_try (itemUri fileName : string) : M unit :=
  try_catch
    (deleteAsync itemUri ;;
     c ← get_comp;
     setPlaylist (filter (fun item => uri item ≠ itemUri) (playlist c)) ;;
     showMp3CustomAlert (AlertRemoved fileName))
    (showMp3CustomAlert AlertRemoveError).

(** [removeMp3Audio(itemUri, fileName)]; the test is
    [currentMp3Sound && currentMp3Sound._uri === itemUri]. *)
Definition removeMp3Audio (r : Comp) (itemUri fileName : string) : M unit :=
  match currentMp3Sound r with
  | Some s =>
      if bool_decide (_uri s = Some itemUri) then stopMp3Audio r else ret tt
  | None => ret tt
  end ;;
  removeMp3Audio_try itemUri fileName.

(** ** The event loop

    What the user and the platform can make happen, one turn at a time.
    Two waits are long enough for other turns to run in between, and are
    kept as pending work: the read of the stored playlist started at mount,
    and every decoder load started by [playMp3Audio].  The other handlers
    run to their end within their turn. *)

#[global] Instance Track_eq_dec : EqDecision Track.
Proof. solve_decision. Defined.

Record Sys := {
  st : St;
  (* the [getItem] promise of a [loadMp3Playlist] that has not resumed *)
  pending_load : option (Result (option Stored));
  (* the [playMp3Audio] calls waiting for [createAsync], oldest first, each
     with the render its handler belongs to *)
  pending_plays : list (Comp * string)
}.

Inductive Event :=
| LoadSettles                               (* the stored playlist was read *)
| TapPlayPause (item : Track)               (* the play/pause button of a row *)
| PlaySettles (i : nat)                     (* the i-th load in flight settles *)
| TapStop                                   (* "Parar Tudo" *)
| TapAdd (answer : DocumentResult)          (* "Adicionar Musica" *)
| TapRemove (item : Track)                  (* the delete button of a row *)
| StatusUpdate (k : nat) (status : Status)  (* the decoder reports on sound k *)
| Relaunch.                                 (* the app is closed and opened again *)

(** The first render and its effects. *)
Definition boot (w : World) : Sys :=
  {| st := snd (mount (w, initialComp));
     pending_load := match fst (mount (w, initialComp)) with
                     | Ok p => Some p
                     | Throw => None
                     end;
     pending_plays := [] |}.

(** The row button shows "pause" and calls [pauseMp3Audio] when
    [isMp3Playing && currentMp3Sound && currentMp3Sound._uri === item.uri];
    otherwise it calls [playMp3Audio(item.uri)].  ([_uri] being undefined,
    the test is false on every sound.) *)
Definition row_is_playing (r : Comp) (item : Track) : bool :=
  isMp3Playing r &&
  match currentMp3Sound r with
  | Some s => bool_decide (_uri s = Some (uri item))
  | None => false
  end.

Definition handle_of (k : nat) (w : World) : option Handle :=
  List.find (fun h => key (sound h) =? k) (live w).

Definition exec (e : Event) (y : Sys) : Sys :=
  let r := snd (st y) in
  match e with
  | LoadSettles =>
      match pending_load y with
      | Some p =>
          {| st := snd (turn (loadMp3Playlist_end p) (st y));
             pending_load := None;
             pending_plays := pending_plays y |}
      | None => y
      end
  | TapPlayPause item =>
      if bool_decide (item ∈ playlist r) then
        if row_is_playing r item then
          {| st := snd (turn (pauseMp3Audio r) (st y));
             pending_load := pending_load y;
             pending_plays := pending_plays y |}
        else
          match turn (playMp3Audio_begin r (uri item)) (st y) with
          | (Ok _, s') =>
              {| st := s'; pending_load := pending_load y;
                 pending_plays := pending_plays y ++ [(r, uri item)] |}
          | (Throw, s') =>
              {| st := s'; pending_load := pending_load y;
                 pending_plays := pending_plays y |}
          end
      else y
  | PlaySettles i =>
      match pending_plays y !! i with
      | Some (r', itemUri) =>
          {| st := snd (turn (playMp3Audio_end r' itemUri) (st y));
             pending_load := pending_load y;
             pending_plays := delete i (pending_plays y) |}
      | None => y
      end
  | TapStop =>
      match currentMp3Sound r with
      | Some _ =>
          {| st := snd (turn (stopMp3Audio r) (st y));
             pending_load := pending_load y;
             pending_plays := pending_plays y |}
      | None => y
      end
  | TapAdd answer =>
      {| st := snd (turn (pickMp3File answer) (st y));
         pending_load := pending_load y;
         pending_plays := pending_plays y |}
  | TapRemove item =>
      if bool_decide (item ∈ playlist r) then
        {| st := snd (turn (removeMp3Audio r (uri item) (name item)) (st y));
           pending_load := pending_load y;
           pending_plays := pending_plays y |}
      else y
  | StatusUpdate k status =>
      match handle_of k (fst (st y)) with
      | Some h =>
          {| st := snd (turn (deliver h status) (st y));
             pending_load := pending_load y;
             pending_plays := pending_plays y |}
      | None => y
      end
  | Relaunch => boot (with_live [] (fst (st y)))
  end.

(** The events of a list happen one after the other. *)
Definition run (events : list Event) (y : Sys) : Sys :=
  foldl (fun y e => exec e y) y events.

(** The states the app can be in on a device whose store holds [w]'s
    content when the app is first opened. *)
Definition reachable_from (w : World) (y : Sys) : Prop :=
  ∃ events, y = run events (boot w).

(** ** The states of the session, read off the component

    The component has no state variable of its own for the session; the
    states of the specification are these combinations of its cells. *)

Definition Idle (c : Comp) : Prop := currentMp3Sound c = None.

Definition Playing (c : Comp) : Prop :=
  is_Some (currentMp3Sound c) ∧ isMp3Playing c = true.

(** The part of the component that describes the session. *)
Definition session (c : Comp) : option Sound * bool * option Status :=
  (currentMp3Sound c, isMp3Playing c, mp3PlaybackStatus c).

(** ** Sample data *)

Definition no_faults : Call -> bool := fun _ => false.

Definition track_a : Track := {| name := "a.mp3"; uri := "file:///doc/audio/a.mp3" |}.
Definition track_b : Track := {| name := "b.mp3"; uri := "file:///doc/audio/b.mp3" |}.

(** A device with the two tracks copied in and nothing loaded or stored;
    the picker's cache holds another file called a.mp3. *)
Definition sample_world : World :=
  {| documentDirectory := "file:///doc/";
     files := <["file:///doc/audio/" := Dir]>
              (<[uri track_a := File "AAAA"]>
               (<[uri track_b := File "BBBB"]>
                (<["file:///cache/a.mp3" := File "NEW!"]> ∅)));
     storage := None; live := []; next_key := 0;
     faults := no_faults; log := [];
     progress := fun _ => (0, 1000) |}.

(** The same device after a session that stored both tracks. *)
Definition sample_device : World :=
  with_storage (Some (StoredJson [track_a; track_b])) sample_world.

(** The app opened on that device, once its playlist is loaded. *)
Definition sample_ready : Sys := run [LoadSettles] (boot sample_device).

Definition status_tick : Status :=
  StatusLoaded 10 1000 false.

Definition status_finished : Status :=
  StatusLoaded 1000 1000 true.

(** The answer of a user who picks one file. *)
Definition picks (fileName fileUri : string) : DocumentResult :=
  {| canceled := false;
     assets := Some [{| asset_name := fileName; asset_uri := fileUri |}] |}.

(** A stored value that the app itself can have written: no two of its
    tracks have the same uri. *)
Definition stored_ok (o : option Stored) : Prop :=
  ∀ l, o = Some (StoredJson l) → NoDup (uri <$> l).

(** The playlist and the store hold no two tracks with the same uri. *)
Definition store_inv (s : St) : Prop :=
  NoDup (uri <$> playlist (snd s)) ∧ stored_ok (storage (fst s)).

Definition sys_inv (y : Sys) : Prop :=
  store_inv (st y) ∧ ∀ o, pending_load y = Some (Ok o) → stored_ok o.

(** The decoder holds exactly the sound the session refers to. *)
Definition owned (s : St) : Prop :=
  sound <$> live (fst s) = option_list (currentMp3Sound (snd s)).

(** ** Running the monad *)

Ltac run :=
  repeat (cbv [mbind M_bind mret M_ret bind ret throw try_catch try_finally
               not_awaited attempt await get_world get_comp modify_world
               modify_comp call press turn] in *; cbn [fst snd] in * ).

(** Unfold the setters and the platform calls, then run. *)
Ltac crank :=
  unfold setPlaylist, setCurrentMp3Sound, setIsMp3Playing,
    setMp3PlaybackStatus, setMp3Loading, showMp3CustomAlert,
    getItem, setItem, getInfoAsync, makeDirectoryAsync, copyAsync,
    deleteAsync, getDocumentAsync, unloadAsync, stopAsync, pauseAsync,
    createAsync_begin, createAsync_end, report, setMp3PlaybackStatus in *;
  run.

(** ** Frames

    [keeps f m]: running [m] does not change the observation [f] of the
    state.  The lemmas below follow the structure of the handlers, so that
    [eauto with keeps] proves a frame property of a whole handler from the
    frame properties of the setters and platform calls it uses. *)

Definition keeps {A B} (f : St → B) (m : M A) : Prop :=
  ∀ s, f (snd (m s)) = f s.

Create HintDb keeps discriminated.

(** What saving the playlist does not touch: everything but the store, the
    log and the alert. *)
Definition beside_store (s : St) :=
  (files (fst s), faults (fst s), live (fst s), documentDirectory (fst s),
   playlist (snd s), playlist_ref (snd s), session (snd s),
   mp3Loading (snd s)).

(** What the session handlers do not touch: the files, the store and the
    playlist. *)
Definition beside_session (s : St) :=
  (files (fst s), faults (fst s), storage (fst s),
   documentDirectory (fst s), playlist (snd s), playlist_ref (snd s),
   mp3Loading (snd s)).

(** ** The alert modal and the time display *)

Definition with_no_alert (c : Comp) : Comp :=
  {| playlist := playlist c; playlist_ref := playlist_ref c;
     currentMp3Sound := currentMp3Sound c; isMp3Playing := isMp3Playing c;
     mp3PlaybackStatus := mp3PlaybackStatus c;
     mp3ErrorMessage := None;
     showMp3ErrorModal := false; mp3Loading := mp3Loading c |}.

(** [closeMp3ErrorModal]: [setShowMp3ErrorModal(false)] and
    [setMp3ErrorMessage('')], the value the message cell starts with. *)
Definition closeMp3ErrorModal : M unit := modify_comp with_no_alert.

(** [formatPlaybackTime(milliseconds)].  The argument is a field of the
    playback status: a whole number of milliseconds, or absent
    ([undefined], which is falsy like [0]).  [pretty] is the decimal
    numeral that a template literal prints for a whole number. *)
Definition formatPlaybackTime (milliseconds : option nat) : string :=
  match milliseconds with
  | None => "00:00"
  | Some ms =>
      if ms =? 0 then "00:00"
      else
        let totalSeconds := ms / 1000 in
        let minutes := totalSeconds / 60 in
        let seconds := totalSeconds mod 60 in
        (if minutes <? 10 then "0" else "") +:+ pretty minutes +:+ ":" +:+
        (if seconds <? 10 then "0" else "") +:+ pretty seconds
  end.

(** The modal is on screen exactly when there is a message to show. *)
Definition modal_consistent (s : St) : Prop :=
  showMp3ErrorModal (snd s) = bool_decide (is_Some (mp3ErrorMessage (snd s))).

(** The events of the player together with the button of the modal. *)
Inductive Gesture :=
| Player (e : Event)
| TapCloseModal.

Definition act (g : Gesture) (y : Sys) : Sys :=
  match g with
  | Player e => exec e y
  | TapCloseModal =>
      {| st := snd (turn closeMp3ErrorModal (st y));
         pending_load := pending_load y;
         pending_plays := pending_plays y |}
  end.

Definition perform (gestures : list Gesture) (y : Sys) : Sys :=
  foldl (fun y g => act g y) y gestures.

(** Every track of the playlist has its file. *)
Definition files_present (s : St) : Prop :=
  Forall (fun item => is_Some (files (fst s) !! uri item)) (playlist (snd s)).

(** A platform that rejects no call. *)
Definition reliable (w : World) : Prop := ∀ x, faults w x = false.

(** While the load started at mount is pending the loading flag is up; once
    it is over the flag is down and the store holds the playlist. *)
Definition store_mirrors (y : Sys) : Prop :=
  match pending_load y with
  | Some _ => mp3Loading (snd (st y)) = true
  | None =>
      mp3Loading (snd (st y)) = false ∧
      storage (fst (st y)) = Some (StoredJson (playlist (snd (st y))))
  end.

(** [preserves P m]: running [m] from a state where [P] holds leads to a
    state where [P] holds. *)
Definition preserves {A} (P : St → Prop) (m : M A) : Prop :=
  ∀ s, P s → P (snd (m s)).

(** ** The Pomodoro timer

    The timer half of [Index] in part_000.  Its state is four [useState]
    cells and two refs; its work is done by two effects that React runs
    after a render in which one of their dependencies changed, and by two
    handlers.  The platform is the two sounds of the first effect, the
    background music and the alarm, and one interval timer.

    An event is taken to run to its end, with the renders and effects it
    causes, before the next one starts. *)

Module Pomodoro.

(** The three entries of the array [pomodoro].  [timerType] holds one of
    them, and React compares it by identity. *)
Inductive TimerType := focus | short | long.

#[global] Instance TimerType_eq_dec : EqDecision TimerType.
Proof. solve_decision. Defined.

Definition initialValue (p : TimerType) : Z :=
  match p with
  | focus => 25 * 60
  | short => 5 * 60
  | long => 15 * 60
  end.

(** The calls made on the two sounds. *)
Inductive AudioCall := LofiPause | LofiPlay | AlarmReplay | AlarmStop.

Record Timer := {
  (* refs: whether [sound.current] and [alarmSound.current] are set *)
  sound : bool;
  alarmSound : bool;
  (* useState cells *)
  isLofiPlaying : bool;
  timerType : TimerType;
  timeLeft : Z;
  isRunning : bool;
  (* platform *)
  interval : bool;         (* an interval is armed *)
  lofi_sounding : bool;    (* the background music is audible *)
  rejects : AudioCall → bool;
  calls : list AudioCall;  (* the calls made, oldest first *)
}.

Definition setIsLofiPlaying (v : bool) (s : Timer) : Timer :=
  {| sound := sound s; alarmSound := alarmSound s; isLofiPlaying := v;
     timerType := timerType s; timeLeft := timeLeft s;
     isRunning := isRunning s; interval := interval s;
     lofi_sounding := lofi_sounding s; rejects := rejects s;
     calls := calls s |}.

Definition setTimerType (p : TimerType) (s : Timer) : Timer :=
  {| sound := sound s; alarmSound := alarmSound s;
     isLofiPlaying := isLofiPlaying s;
     timerType := p; timeLeft := timeLeft s;
     isRunning := isRunning s; interval := interval s;
     lofi_sounding := lofi_sounding s; rejects := rejects s;
     calls := calls s |}.

Definition setTimeLeft (v : Z) (s : Timer) : Timer :=
  {| sound := sound s; alarmSound := alarmSound s;
     isLofiPlaying := isLofiPlaying s;
     timerType := timerType s; timeLeft := v;
     isRunning := isRunning s; interval := interval s;
     lofi_sounding := lofi_sounding s; rejects := rejects s;
     calls := calls s |}.

Definition setIsRunning (v : bool) (s : Timer) : Timer :=
  {| sound := sound s; alarmSound := alarmSound s;
     isLofiPlaying := isLofiPlaying s;
     timerType := timerType s; timeLeft := timeLeft s;
     isRunning := v; interval := interval s;
     lofi_sounding := lofi_sounding s; rejects := rejects s;
     calls := calls s |}.

Definition with_interval (v : bool) (s : Timer) : Timer :=
  {| sound := sound s; alarmSound := alarmSound s;
     isLofiPlaying := isLofiPlaying s;
     timerType := timerType s; timeLeft := timeLeft s;
     isRunning := isRunning s; interval := v;
     lofi_sounding := lofi_sounding s; rejects := rejects s;
     calls := calls s |}.

Definition with_sound (s : Timer) : Timer :=
  {| sound := true; alarmSound := alarmSound s;
     isLofiPlaying := isLofiPlaying s;
     timerType := timerType s; timeLeft := timeLeft s;
     isRunning := isRunning s; interval := interval s;
     lofi_sounding := true; rejects := rejects s;
     calls := calls s |}.

Definition with_alarmSound (s : Timer) : Timer :=
  {| sound := sound s; alarmSound := true;
     isLofiPlaying := isLofiPlaying s;
     timerType := timerType s; timeLeft := timeLeft s;
     isRunning := isRunning s; interval := interval s;
     lofi_sounding := lofi_sounding s; rejects := rejects s;
     calls := calls s |}.

(** A call on a sound: it is logged; when the platform rejects it nothing
    else happens, otherwise pausing silences the background music and
    playing makes it audible.  The boolean tells whether the promise is
    fulfilled. *)
Definition audio (c : AudioCall) (s : Timer) : bool * Timer :=
  let sounding :=
    if rejects s c then lofi_sounding s
    else match c with
         | LofiPause => false
         | LofiPlay => true
         | AlarmReplay | AlarmStop => lofi_sounding s
         end in
  (negb (rejects s c),
   {| sound := sound s; alarmSound := alarmSound s;
      isLofiPlaying := isLofiPlaying s;
      timerType := timerType s; timeLeft := timeLeft s;
      isRunning := isRunning s; interval := interval s;
      lofi_sounding := sounding; rejects := rejects s;
      calls := calls s ++ [c] |}).

(** Effect 2, on [[timerType]]: [setTimeLeft(timerType.initialValue)] and
    [setIsRunning(false)].  [r] is the render the effect closes over. *)
Definition reset_effect (r s : Timer) : Timer :=
  setIsRunning false (setTimeLeft (initialValue (timerType r)) s).

(** Effect 3, on [[isRunning, timeLeft]].  The cleanup of its previous run
    clears the interval; then it arms a new one, or at zero replays the
    alarm, pauses the background music (neither call is awaited) and
    stops the timer. *)
Definition countdown_effect (r s : Timer) : Timer :=
  let s := with_interval false s in
  if isRunning r && (0 <? timeLeft r)%Z then with_interval true s
  else if (timeLeft r =? 0)%Z then
    let s := if alarmSound s then snd (audio AlarmReplay s) else s in
    let s := if sound s
             then setIsLofiPlaying false (snd (audio LofiPause s)) else s in
    setIsRunning false s
  else s.

(** The effects of one render: [prev] is the render before it, [s] the
    state rendered.  An effect runs when one of its dependencies is not
    the value of the render before. *)
Definition commit (prev s : Timer) : Timer :=
  let s1 :=
    if bool_decide (timerType prev = timerType s) then s
    else reset_effect s s in
  if bool_decide (isRunning prev = isRunning s)
     && bool_decide (timeLeft prev = timeLeft s)
  then s1
  else countdown_effect s s1.

(** React renders again only when a cell was set to a new value. *)
Definition same_cells (a b : Timer) : bool :=
  bool_decide (isLofiPlaying a = isLofiPlaying b)
  && bool_decide (timerType a = timerType b)
  && bool_decide (timeLeft a = timeLeft b)
  && bool_decide (isRunning a = isRunning b).

(** Render and run effects until no effect sets a cell, at most [passes]
    times. *)
Fixpoint settle (passes : nat) (prev s : Timer) : Timer :=
  match passes with
  | 0 => s
  | S passes =>
      let s' := commit prev s in
      if same_cells s s' then s' else settle passes s s'
  end.

(** A render after an event: two passes, after which the effects set no
    cell any more. *)
Definition rerender (prev s : Timer) : Timer := settle 2 prev s.

(** [togglePomodoroTimer], closing over the render [r]. *)
Definition togglePomodoroTimer (r s : Timer) : Timer :=
  let toggle s := setIsRunning (negb (isRunning s)) s in
  if negb (isRunning r) then
    (* try { await alarmSound.current.stopAsync() } catch (e) {} *)
    let s := if alarmSound s then snd (audio AlarmStop s) else s in
    if sound s && negb (isLofiPlaying r) then
      let '(fulfilled, s) := audio LofiPlay s in
      if fulfilled then toggle (setIsLofiPlaying true s)
      else s (* the rejection ends the handler *)
    else toggle s
  else toggle s.

(** [toggleLofiSound], closing over the render [r]. *)
Definition toggleLofiSound (r s : Timer) : Timer :=
  if sound s then
    let '(fulfilled, s) :=
      audio (if isLofiPlaying r then LofiPause else LofiPlay) s in
    if fulfilled then setIsLofiPlaying (negb (isLofiPlaying r)) s
    else s
  else s.

(** The component at mount: the initial cells, no sound loaded yet, and
    the first run of both effects. *)
Definition initial (rej : AudioCall → bool) : Timer :=
  {| sound := false; alarmSound := false; isLofiPlaying := true;
     timerType := focus; timeLeft := initialValue focus;
     isRunning := false; interval := false; lofi_sounding := false;
     rejects := rej; calls := [] |}.

Definition mount (rej : AudioCall → bool) : Timer :=
  let r := initial rej in
  settle 2 r (countdown_effect r (reset_effect r r)).

Inductive Event :=
| Tick                        (* the interval fires *)
| Select (p : TimerType)      (* a mode button: [setTimerType(p)] *)
| TapStartPause               (* [togglePomodoroTimer] *)
| TapMute                     (* [toggleLofiSound] *)
| LofiLoaded                  (* effect 1 has created the background music *)
| AlarmLoaded.                (* effect 1 has created the alarm *)

Definition exec (e : Event) (s : Timer) : Timer :=
  match e with
  | Tick =>
      (* setTimeLeft(prev => prev - 1), only while an interval is armed *)
      if interval s then rerender s (setTimeLeft (timeLeft s - 1) s) else s
  | Select p => rerender s (setTimerType p s)
  | TapStartPause => rerender s (togglePomodoroTimer s s)
  | TapMute => rerender s (toggleLofiSound s s)
  | LofiLoaded =>
      (* createAsync(lofi, { shouldPlay: true, ... }); sound.current = bgSound *)
      if sound s then s else with_sound s
  | AlarmLoaded =>
      (* created after the background music, by the same function *)
      if sound s && negb (alarmSound s) then with_alarmSound s else s
  end.

Definition run (events : list Event) (s : Timer) : Timer :=
  foldl (fun s e => exec e s) s events.

(** The zero branch of effect 3 on its own. *)
Definition zero_branch (s : Timer) : Timer :=
  let s := if alarmSound s then snd (audio AlarmReplay s) else s in
  let s := if sound s
           then setIsLofiPlaying false (snd (audio LofiPause s)) else s in
  setIsRunning false s.

(** What effect 3 and the render it may cause come to, for the render
    [s] (see [countdown_settles]). *)
Definition after_countdown (s : Timer) : Timer :=
  if isRunning s && (0 <? timeLeft s)%Z then with_interval true s
  else if (timeLeft s =? 0)%Z then
    if isRunning s
    then zero_branch (with_interval false (zero_branch (with_interval false s)))
    else zero_branch (with_interval false s)
  else with_interval false s.

(** The fields the two handlers leave alone. *)
Definition handler_frame (s s' : Timer) : Prop :=
  timerType s' = timerType s ∧ timeLeft s' = timeLeft s
  ∧ interval s' = interval s ∧ sound s' = sound s
  ∧ alarmSound s' = alarmSound s ∧ rejects s' = rejects s.

(** An event that leaves the mode [p] selected. *)
Definition keeps_mode (p : TimerType) (e : Event) : Prop :=
  match e with
  | Select q => q = p
  | _ => True
  end.

(** What one arrival at zero does to the sounds: the calls of the zero
    branch of effect 3. *)
Definition ring (s : Timer) : list AudioCall :=
  (if alarmSound s then [AlarmReplay] else [])
  ++ (if sound s then [LofiPause] else []).

(** The state the timer is in between events. *)
Definition timer_inv (s : Timer) : Prop :=
  (0 ≤ timeLeft s ≤ initialValue (timerType s))%Z
  ∧ (isRunning s = true → (0 < timeLeft s)%Z)
  ∧ interval s = isRunning s.



(** A platform that rejects no call, one that refuses to play the
    background music, and a session: both sounds load, the short break
    is chosen and started. *)
Definition no_rejects : AudioCall → bool := fun _ => false.

Definition rejects_play (c : AudioCall) : bool :=
  match c with
  | LofiPlay => true
  | _ => false
  end.

Definition sample_session : list Event :=
  [LofiLoaded; AlarmLoaded; Select short; TapStartPause].

End Pomodoro.

(** * Properties *)

(** ** Frame rules *)

Section Keeps.
Context {B : Type} (f : St → B).

Lemma keeps_ret {A} (a : A) : keeps f (mret a).
Proof. by intros s. Qed.

Lemma keeps_throw {A} : keeps f (@throw A).
Proof. by intros s. Qed.

Lemma keeps_await {A} (p : Result A) : keeps f (await p).
Proof. by intros s. Qed.

Lemma keeps_get_world : keeps f get_world.
Proof. by intros s. Qed.

Lemma keeps_get_comp : keeps f get_comp.
Proof. by intros s. Qed.

Lemma keeps_bind {A C} (m : M A) (k : A → M C) :
  keeps f m → (∀ a, keeps f (k a)) → keeps f (m ≫= k).
Proof.
  intros Hm Hk s. unfold mbind, M_bind, bind.
  specialize (Hm s). destruct (m s) as [[a|] s1]; cbn [snd] in *;
    [by rewrite Hk | done].
Qed.

Lemma keeps_try_catch {A} (body handler : M A) :
  keeps f body → keeps f handler → keeps f (try_catch body handler).
Proof.
  intros Hbody Hhandler s. unfold try_catch.
  specialize (Hbody s). destruct (body s) as [[a|] s1]; cbn [snd] in *;
    [done | by rewrite Hhandler].
Qed.

Lemma keeps_try_finally {A} (body : M A) (fin : M unit) :
  keeps f body → keeps f fin → keeps f (try_finally body fin).
Proof.
  intros Hbody Hfin s. unfold try_finally.
  specialize (Hbody s). destruct (body s) as [res s1]. cbn [snd] in *.
  specialize (Hfin s1). destruct (fin s1) as [[[]|] s2]; cbn [snd] in *;
    congruence.
Qed.

Lemma keeps_not_awaited {A} (m : M A) : keeps f m → keeps f (not_awaited m).
Proof. intros Hm s. apply Hm. Qed.

Lemma keeps_attempt {A} (m : M A) : keeps f m → keeps f (attempt m).
Proof. intros Hm s. apply Hm. Qed.

Lemma keeps_press {A} (handler : Comp → M A) :
  (∀ r, keeps f (handler r)) → keeps f (press handler).
Proof. intros Hh s. apply Hh. Qed.

Lemma keeps_modify_world (g : World → World) :
  (∀ w c, f (g w, c) = f (w, c)) → keeps f (modify_world g).
Proof. intros Hg [w c]. apply Hg. Qed.

Lemma keeps_modify_comp (g : Comp → Comp) :
  (∀ w c, f (w, g c) = f (w, c)) → keeps f (modify_comp g).
Proof. intros Hg [w c]. apply Hg. Qed.

Lemma keeps_call (c : Call) :
  (∀ w c', f (record_call c w, c') = f (w, c')) → keeps f (call c).
Proof.
  intros Hg [w c']. unfold call. cbn [fst snd].
  destruct (faults w c); apply Hg.
Qed.
End Keeps.

#[global] Hint Resolve keeps_ret keeps_throw keeps_await keeps_get_world
  keeps_get_comp keeps_bind keeps_try_catch keeps_try_finally
  keeps_not_awaited keeps_attempt keeps_press : keeps.

(** Proves [keeps f m] for a handler [m] built from setters and platform
    calls that leave [f] alone: follow the structure of [m], splitting on
    its tests, down to the updates, where [f] reads the same value. *)
Ltac keeps_step :=
  match goal with
  | |- keeps _ (match ?x with _ => _ end) => destruct x
  | |- keeps _ (if ?b then _ else _) => destruct b
  | |- keeps _ (modify_world _) => apply keeps_modify_world; by intros
  | |- keeps _ (modify_comp _) => apply keeps_modify_comp; by intros
  | |- keeps _ (call _) => apply keeps_call; by intros
  | |- keeps _ _ => solve [eauto with keeps]
  | |- keeps _ (_ ≫= _) => apply keeps_bind
  | |- keeps _ (try_catch _ _) => apply keeps_try_catch
  | |- keeps _ (try_finally _ _) => apply keeps_try_finally
  | |- keeps _ (not_awaited _) => apply keeps_not_awaited
  | |- keeps _ (attempt _) => apply keeps_attempt
  | |- keeps _ (press _) => apply keeps_press
  | |- keeps _ (mret _) => apply keeps_ret
  | |- ∀ _, keeps _ _ => intro
  end.

Ltac solve_keeps :=
  unfold playMp3Audio, playMp3Audio_begin, playMp3Audio_end, pauseMp3Audio,
    stopMp3Audio, deliver, onMp3PlaybackStatusUpdate, removeMp3Audio,
    removeMp3Audio_try,
    pickMp3File, pickMp3File_try, add_to_playlist, loadMp3Playlist_end,
    loadMp3Playlist_begin, saveEffect, saveMp3Playlist,
    setPlaylist, setCurrentMp3Sound, setIsMp3Playing,
    setMp3PlaybackStatus, setMp3Loading, showMp3CustomAlert,
    getItem, setItem, getInfoAsync, makeDirectoryAsync, copyAsync,
    deleteAsync, getDocumentAsync, unloadAsync, stopAsync, pauseAsync,
    createAsync_begin, createAsync_end, report, setMp3PlaybackStatus;
  solve [repeat keeps_step].

(** ** The playback session *)

Lemma pauseMp3Audio_never_throws (r : Comp) (s : St) :
  fst (pauseMp3Audio r s) = Ok tt.
Proof.
  unfold pauseMp3Audio. destruct (currentMp3Sound r); [|done].
  destruct (isMp3Playing r); [|done].
  unfold pauseAsync, setIsMp3Playing, showMp3CustomAlert. run.
  destruct (faults (fst s) _); [done|]. cbn.
  destruct (isLoaded _ _); done.
Qed.

Lemma stopMp3Audio_never_throws (r : Comp) (s : St) :
  fst (stopMp3Audio r s) = Ok tt.
Proof.
  unfold stopMp3Audio. destruct (currentMp3Sound r); [|done].
  unfold stopAsync, unloadAsync, setIsMp3Playing, setCurrentMp3Sound,
    setMp3PlaybackStatus, showMp3CustomAlert. run.
  destruct (faults (fst s) (Stop _)); [done|]. cbn.
  destruct (isLoaded _ _); [|done]. cbn.
  destruct (faults (fst s) (Unload _)); done.
Qed.

(** C7. Invalid transitions are silent no-ops: [pauseMp3Audio] called in a
    state that is not Playing (a sound is held and [isMp3Playing] is set)
    returns normally and leaves both the component and the platform exactly
    as they were (no call is made, no alert is raised); in particular so
    when Idle, where [stopMp3Audio] is a no-op as well. *)
Theorem invalid_transition_is_silent_noop (r : Comp) (s : St) :
  ¬ Playing r →
  pauseMp3Audio r s = (Ok tt, s) ∧
  (Idle r → stopMp3Audio r s = (Ok tt, s)).
Proof.
  intros Hnot. split.
  - unfold pauseMp3Audio.
    destruct (currentMp3Sound r) as [x|] eqn:Hcur; [|done].
    destruct (isMp3Playing r) eqn:Hplaying; [|done].
    destruct Hnot. split; [rewrite Hcur; by eexists | done].
  - unfold Idle, stopMp3Audio. by intros ->.
Qed.

Lemma invalid_transition_is_silent_noop_witness :
  ¬ Playing initialComp ∧
  pauseMp3Audio initialComp (sample_world, initialComp)
    = (Ok tt, (sample_world, initialComp)) ∧
  stopMp3Audio initialComp (sample_world, initialComp)
    = (Ok tt, (sample_world, initialComp)).
Proof.
  assert (Hnot : ¬ Playing initialComp).
  { intros [_ Hplaying]. discriminate Hplaying. }
  split; [exact Hnot|].
  destruct (invalid_transition_is_silent_noop initialComp
              (sample_world, initialComp) Hnot) as [Hpause Hstop].
  split; [exact Hpause | exact (Hstop eq_refl)].
Defined.

(** *** Status updates *)

(** On a status that is not a completion the callback only stores the
    status, whatever it closes over: what [report] stands for. *)
Lemma callback_stores_progress
    (captured : option Sound) (status : Status) (s : St) :
  didJustFinish status = false →
  onMp3PlaybackStatusUpdate captured status s = report status s.
Proof.
  intros Hprogress. unfold onMp3PlaybackStatusUpdate. rewrite Hprogress.
  by crank.
Qed.

(** The status the callback leaves: the one it was given, or the unloaded
    status that the unload of its captured sound hands back. *)
Lemma status_update_sets_status (captured : option Sound) (status : Status) (s : St) :
  mp3PlaybackStatus (snd (snd (onMp3PlaybackStatusUpdate captured status s)))
  = Some (match captured with
          | Some c =>
              if didJustFinish status && negb (faults (fst s) (Unload (key c)))
              then StatusUnloaded else status
          | None => status
          end).
Proof.
  unfold onMp3PlaybackStatusUpdate.
  destruct (didJustFinish status), captured as [c|]; crank; try reflexivity.
  destruct (faults (fst s) _); reflexivity.
Qed.

Lemma status_update_finished (captured : option Sound) (status : Status) (s : St) :
  didJustFinish status = true →
  isMp3Playing (snd (snd (onMp3PlaybackStatusUpdate captured status s))) = false.
Proof.
  intros Hfin. unfold onMp3PlaybackStatusUpdate. rewrite Hfin.
  destruct captured; crank; try reflexivity.
  destruct (faults (fst s) _); reflexivity.
Qed.

Lemma status_update_current (captured : option Sound) (status : Status) (s : St) :
  currentMp3Sound (snd (snd (onMp3PlaybackStatusUpdate captured status s)))
  = if didJustFinish status && bool_decide (is_Some captured) then None
    else currentMp3Sound (snd s).
Proof.
  unfold onMp3PlaybackStatusUpdate.
  destruct (didJustFinish status), captured as [c|]; crank; reflexivity.
Qed.

(** *** Natural completion and explicit stop *)




(** *** Updates and completions from a superseded sound *)

(** C5, as stated, fails.  Track a is started and, while it loads, track b:
    both loads settle, the session refers to b's sound (1), and a's sound
    (0) stays loaded.  A status reported by sound 0 is then stored as the
    session's status, and a completion reported by sound 0 lowers the
    playing flag while b's sound is the current one.  And when b's load
    settles first, the late completion of a's load makes a's sound the
    current one. *)
Lemma stale_update_is_applied :
  let y := run [TapPlayPause track_a; TapPlayPause track_b;
                PlaySettles 0; PlaySettles 0] sample_ready in
  let late := run [TapPlayPause track_a; TapPlayPause track_b;
                   PlaySettles 1; PlaySettles 0] sample_ready in
  let b := {| key := 1; loaded_from := uri track_b |} in
  currentMp3Sound (snd (st y)) = Some b ∧
  isMp3Playing (snd (st y)) = true ∧
  mp3PlaybackStatus (snd (st (run [StatusUpdate 0 status_tick] y)))
    = Some status_tick ∧
  session (snd (st (run [StatusUpdate 0 status_finished] y)))
    = (Some b, false, Some status_finished) ∧
  currentMp3Sound (snd (st late))
    = Some {| key := 1; loaded_from := uri track_a |}.
Proof. vm_compute. repeat split; reflexivity. Qed.

(** C5, amended.  Every status update the decoder delivers is applied,
    whichever sound it comes from: a status that is not a completion is
    stored in [mp3PlaybackStatus]; a completion lowers [isMp3Playing] and,
    when the callback holds a sound, unloads that sound and clears
    [currentMp3Sound], leaving in [mp3PlaybackStatus] the completion status
    or the unloaded status which that unload hands back.  And every load
    that settles successfully installs its sound as [currentMp3Sound] and
    sets [isMp3Playing], whichever state the session is in by then. *)
Theorem every_update_and_completion_is_applied
    (h : Handle) (status : Status) (r : Comp) (itemUri : string) (s : St) :
  faults (fst s) (CreateSound itemUri) = false →
  let updated := snd (snd (deliver h status s)) in
  let settled := snd (snd (playMp3Audio_end r itemUri s)) in
  (didJustFinish status = false →
   mp3PlaybackStatus updated = Some status ∧
   currentMp3Sound updated = currentMp3Sound (snd s) ∧
   isMp3Playing updated = isMp3Playing (snd s)) ∧
  (didJustFinish status = true →
   isMp3Playing updated = false ∧
   match listener h with
   | Some c =>
       currentMp3Sound updated = None ∧
       mp3PlaybackStatus updated
       = Some (if faults (fst s) (Unload (key c)) then status
               else StatusUnloaded)
   | None =>
       currentMp3Sound updated = currentMp3Sound (snd s) ∧
       mp3PlaybackStatus updated = Some status
   end) ∧
  currentMp3Sound settled
    = Some {| key := next_key (fst s); loaded_from := itemUri |} ∧
  isMp3Playing settled = true.
Proof.
  intros Hok. cbv zeta. unfold deliver. split; [|split].
  - intros Hprogress. rewrite callback_stores_progress by done.
    by crank.
  - intros Hfin. split; [by apply status_update_finished|].
    rewrite status_update_sets_status, status_update_current, Hfin.
    destruct (listener h) as [c|]; [|done].
    split; [done|]. by destruct (faults (fst s) (Unload (key c))).
  - unfold playMp3Audio_end. crank. rewrite Hok. split; reflexivity.
Qed.

Lemma every_update_and_completion_is_applied_witness :
  let y := run [TapPlayPause track_a; TapPlayPause track_b;
                PlaySettles 0; PlaySettles 0] sample_ready in
  let s := st y in
  let a := {| key := 0; loaded_from := uri track_a |} in
  let h := {| sound := a; listener := None |} in
  let updated := snd (snd (deliver h status_tick s)) in
  let settled := snd (snd (playMp3Audio_end initialComp (uri track_b) s)) in
  handle_of 0 (fst s) = Some h ∧
  currentMp3Sound (snd s) = Some {| key := 1; loaded_from := uri track_b |} ∧
  mp3PlaybackStatus updated = Some status_tick ∧
  currentMp3Sound settled
    = Some {| key := 2; loaded_from := uri track_b |} ∧
  isMp3Playing settled = true.
Proof.
  cbv zeta. split; [vm_compute; reflexivity|].
  split; [vm_compute; reflexivity|].
  destruct (every_update_and_completion_is_applied
              {| sound := {| key := 0; loaded_from := uri track_a |};
                 listener := None |}
              status_tick initialComp (uri track_b)
              (st (run [TapPlayPause track_a; TapPlayPause track_b;
                        PlaySettles 0; PlaySettles 0] sample_ready)))
    as (Hprogress & _ & Hcurrent & Hplaying); [vm_compute; reflexivity|].
  destruct (Hprogress eq_refl) as (Hstatus & _ & _).
  split; [exact Hstatus|]. split; [exact Hcurrent|exact Hplaying].
Defined.

(** *** Single voice *)

(** What one [playMp3Audio], left alone until its load settles, does to a
    session that owns its sound, when the platform accepts the unload. *)
Lemma playMp3Audio_owned (itemUri : string) (s : St) :
  owned s →
  (∀ k, faults (fst s) (Unload k) = false) →
  let s' := snd (press (fun r => playMp3Audio r itemUri) s) in
  owned s' ∧
  faults (fst s') = faults (fst s) ∧
  (∀ old, currentMp3Sound (snd s) = Some old →
     let s1 := snd (press (fun r => playMp3Audio_begin r itemUri) s) in
     log (fst s1) = log (fst s) ++ [Unload (key old); CreateSound itemUri] ∧
     live (fst s1) = [] ∧
     currentMp3Sound (snd s1) = None) ∧
  match currentMp3Sound (snd s') with
  | Some x =>
      loaded_from x = itemUri ∧ isMp3Playing (snd s') = true ∧
      sound <$> live (fst s') = [x]
  | None =>
      isMp3Playing (snd s') = false ∧
      mp3ErrorMessage (snd s') = Some AlertPlayError ∧
      live (fst s') = []
  end.
Proof.
  destruct s as [w c]. unfold owned. cbn [fst snd]. intros Howned Hunload.
  cbv zeta. unfold playMp3Audio, playMp3Audio_begin, playMp3Audio_end.
  destruct (currentMp3Sound c) as [old|] eqn:Hcur; crank; rewrite ?Hcur.
  - rewrite Hunload. simpl.
    assert (Hgone : filter (fun h => key (sound h) ≠ key old) (live w) = []).
    { destruct (live w) as [|h [|h' l]]; simplify_eq/=.
      rewrite filter_cons_False; [done|]. naive_solver. }
    rewrite Hgone.
    destruct (faults w (CreateSound itemUri)) eqn:Hcreate; simpl;
      (split; [done|]); (split; [done|]);
      (split; [intros ? [= <-]; by rewrite <- app_assoc|]); done.
  - destruct (live w) as [|h l] eqn:Hlive; simplify_eq/=.
    destruct (faults w (CreateSound itemUri)) eqn:Hcreate; simpl;
      rewrite ?Hlive, ?Hcur; done.
Qed.

(** C1, as stated, fails.  Track a is started and, before its load settles,
    track b.  Nothing is unloaded; once both loads have settled two sounds
    are loaded; and when b's load settles first the session ends up
    referring to a. *)
Lemma overlapping_plays_leave_two_sounds :
  let y := run [TapPlayPause track_a; TapPlayPause track_b] sample_ready in
  let in_order := run [PlaySettles 0; PlaySettles 0] y in
  let reversed := run [PlaySettles 1; PlaySettles 0] y in
  snd <$> pending_plays y = [uri track_a; uri track_b] ∧
  sound <$> live (fst (st in_order))
    = [{| key := 0; loaded_from := uri track_a |}; {| key := 1; loaded_from := uri track_b |}] ∧
  currentMp3Sound (snd (st in_order)) = Some {| key := 1; loaded_from := uri track_b |} ∧
  sound <$> live (fst (st reversed))
    = [{| key := 0; loaded_from := uri track_b |}; {| key := 1; loaded_from := uri track_a |}] ∧
  currentMp3Sound (snd (st reversed)) = Some {| key := 1; loaded_from := uri track_a |}.
Proof. vm_compute. repeat split; reflexivity. Qed.

(** C1, amended.  A [playMp3Audio] called while the session holds a sound
    unloads that sound before it requests the new one, whether or not the
    track is the one already loaded.  When play(A) and then play(B) each run
    until their load has settled, starting from a session that owns its
    sound and on a platform that accepts unloads, the session ends up
    referring to B only (a sound of B, playing; or no sound and the playback
    alert when B's load fails) and at most one sound is loaded. *)
Theorem sequential_play_is_single_voice (A B : string) (s : St) :
  owned s →
  (∀ k, faults (fst s) (Unload k) = false) →
  let sA := snd (press (fun r => playMp3Audio r A) s) in
  let sB := snd (press (fun r => playMp3Audio r B) sA) in
  (∀ old, currentMp3Sound (snd sA) = Some old →
     let s1 := snd (press (fun r => playMp3Audio_begin r B) sA) in
     log (fst s1) = log (fst sA) ++ [Unload (key old); CreateSound B] ∧
     live (fst s1) = [] ∧
     currentMp3Sound (snd s1) = None) ∧
  length (live (fst sB)) ≤ 1 ∧
  match currentMp3Sound (snd sB) with
  | Some x =>
      loaded_from x = B ∧ isMp3Playing (snd sB) = true ∧
      sound <$> live (fst sB) = [x]
  | None =>
      isMp3Playing (snd sB) = false ∧
      mp3ErrorMessage (snd sB) = Some AlertPlayError ∧
      live (fst sB) = []
  end.
Proof.
  intros Howned Hunload. cbv zeta.
  destruct (playMp3Audio_owned A s Howned Hunload) as (HownedA & HfaultsA & _ & _).
  assert (HunloadA : ∀ k,
    faults (fst (snd (press (fun r => playMp3Audio r A) s))) (Unload k) = false).
  { intros k. rewrite HfaultsA. apply Hunload. }
  destruct (playMp3Audio_owned B _ HownedA HunloadA) as (_ & _ & Hrelease & Hfinal).
  split; [exact Hrelease|].
  split; [|exact Hfinal].
  destruct (currentMp3Sound (snd (snd (press (fun r => playMp3Audio r B) _))))
    as [x|].
  - destruct Hfinal as (_ & _ & Hlive).
    apply (f_equal length) in Hlive. rewrite length_fmap in Hlive.
    rewrite Hlive. simpl. lia.
  - destruct Hfinal as (_ & _ & ->). simpl. lia.
Qed.

Lemma sequential_play_is_single_voice_witness :
  let s := st sample_ready in
  let sA := snd (press (fun r => playMp3Audio r (uri track_a)) s) in
  let sB := snd (press (fun r => playMp3Audio r (uri track_a)) sA) in
  currentMp3Sound (snd sA) = Some {| key := 0; loaded_from := uri track_a |} ∧
  (∀ old, currentMp3Sound (snd sA) = Some old →
     let s1 := snd (press (fun r => playMp3Audio_begin r (uri track_a)) sA) in
     log (fst s1)
       = log (fst sA) ++ [Unload (key old); CreateSound (uri track_a)] ∧
     live (fst s1) = [] ∧
     currentMp3Sound (snd s1) = None) ∧
  length (live (fst sB)) ≤ 1 ∧
  match currentMp3Sound (snd sB) with
  | Some x =>
      loaded_from x = uri track_a ∧ isMp3Playing (snd sB) = true ∧
      sound <$> live (fst sB) = [x]
  | None =>
      isMp3Playing (snd sB) = false ∧
      mp3ErrorMessage (snd sB) = Some AlertPlayError ∧
      live (fst sB) = []
  end.
Proof.
  cbv zeta. split; [vm_compute; reflexivity|].
  apply (sequential_play_is_single_voice (uri track_a) (uri track_a)
           (st sample_ready)).
  - vm_compute. reflexivity.
  - intros k. vm_compute. reflexivity.
Defined.

(** ** The playlist store *)

(** *** Loading *)

Lemma filter_all {A} (P : A → Prop) `{!∀ x, Decision (P x)} (l : list A) :
  Forall P l → filter P l = l.
Proof.
  induction 1 as [|x l Hx _ IH]; [done|].
  by rewrite filter_cons_True, IH.
Qed.

Lemma with_log_log (w : World) : with_log (log w) w = w.
Proof. by destruct w. Qed.

Lemma with_log_record_call (l : list Call) (c : Call) (w : World) :
  with_log l (record_call c w) = with_log l w.
Proof. reflexivity. Qed.

(** The loop keeps, in order, the items whose file exists, and only asks
    the file system. *)
Lemma validate_spec (parsed valid : list Track) (w : World) (c : Comp) :
  (∀ path, faults w (GetInfo path) = false) →
  validate parsed valid (w, c)
  = (Ok (valid ++ filter (fun item => is_Some (files w !! uri item)) parsed),
     (with_log (log w ++ ((fun item => GetInfo (uri item)) <$> parsed)) w, c)).
Proof.
  revert valid w. induction parsed as [|item rest IH]; intros valid w Hok.
  - simpl. by rewrite !app_nil_r, with_log_log.
  - cbn [validate]. unfold getInfoAsync. run. rewrite Hok.
    cbn [fst snd]. rewrite IH by (intros path; apply Hok).
    cbn [files record_call with_log log]. rewrite with_log_record_call.
    rewrite <- app_assoc. cbn [fmap list_fmap app].
    destruct (decide (is_Some (files w !! uri item))) as [Hex|Hex].
    + rewrite bool_decide_eq_true_2 by done.
      rewrite filter_cons_True by done. by rewrite <- app_assoc.
    + rewrite bool_decide_eq_false_2 by done.
      by rewrite filter_cons_False by done.
Qed.

(** Mounting on a platform that rejects nothing: the stored playlist is
    read, the empty playlist of the first render is written, and the
    loading flag is up. *)
Lemma mount_spec (w : World) :
  (∀ c, faults w c = false) →
  mount (w, initialComp)
  = (Ok (Ok (storage w)),
     (with_storage (Some (StoredJson []))
        (record_call (SetItem []) (record_call GetItem w)),
      with_mp3Loading true initialComp)).
Proof.
  intros Hok. unfold mount, mount_effects, loadMp3Playlist_begin.
  crank. unfold rerender, deps_changed, saveEffect, saveMp3Playlist.
  crank. rewrite !Hok. simpl. rewrite !Hok. reflexivity.
Qed.

(** The load resumed with a well-formed stored playlist, with the save
    effect that follows it. *)
Lemma loadMp3Playlist_end_spec (stored : list Track) (w : World) (c : Comp) :
  (∀ x, faults w x = false) →
  mp3Loading c = true →
  let valid := filter (fun item => is_Some (files w !! uri item)) stored in
  turn (loadMp3Playlist_end (Ok (Some (StoredJson stored)))) (w, c)
  = (Ok tt,
     (with_storage (Some (StoredJson valid))
        (record_call (SetItem valid)
           (with_log (log w ++ ((fun item => GetInfo (uri item)) <$> stored)) w)),
      with_mp3Loading false (with_playlist valid c))).
Proof.
  intros Hok Hloading. cbv zeta.
  unfold loadMp3Playlist_end, rerender, deps_changed, saveEffect, saveMp3Playlist.
  crank. rewrite validate_spec by (intros; apply Hok).
  unfold rerender, deps_changed, saveEffect, saveMp3Playlist. crank.
  simpl. rewrite Hloading. simpl.
  rewrite orb_true_r. rewrite !Hok. reflexivity.
Qed.

Lemma startup_spec (stored : list Track) (w : World) :
  (∀ c, faults w c = false) →
  storage w = Some (StoredJson stored) →
  let valid := filter (fun item => is_Some (files w !! uri item)) stored in
  let s' := snd (startup (w, initialComp)) in
  snd s' = with_mp3Loading false (with_playlist valid initialComp) ∧
  storage (fst s') = Some (StoredJson valid) ∧
  files (fst s') = files w ∧
  log (fst s')
  = log w ++ [GetItem; SetItem []]
      ++ ((fun item => GetInfo (uri item)) <$> stored) ++ [SetItem valid].
Proof.
  intros Hok Hstored. cbv zeta.
  unfold startup, mbind, M_bind, bind.
  rewrite (mount_spec w Hok), Hstored.
  rewrite loadMp3Playlist_end_spec by done. cbn [fst snd].
  repeat split. simpl. by rewrite <- !app_assoc.
Qed.

(** [startup] is the first render followed by the completion of its load. *)
Lemma startup_is_boot_then_load (w : World) :
  st (run [LoadSettles] (boot w)) = snd (startup (w, initialComp)).
Proof.
  unfold run, boot, startup, mbind, M_bind, bind. cbn [foldl exec pending_load st].
  destruct (mount (w, initialComp)) as [[p|] s1]; reflexivity.
Qed.

(** C3. Load-time reconciliation: when the stored playlist has N tracks and
    the file of exactly one of them is gone, the load at startup leaves in
    [playlist] the other N-1 tracks in their stored order, raises no alert,
    and the save that follows stores exactly those N-1 tracks. *)
Theorem load_drops_the_missing_track
    (w : World) (before after : list Track) (missing : Track) :
  (∀ c, faults w c = false) →
  storage w = Some (StoredJson (before ++ missing :: after)) →
  Forall (fun item => is_Some (files w !! uri item)) (before ++ after) →
  files w !! uri missing = None →
  let s' := snd (startup (w, initialComp)) in
  playlist (snd s') = before ++ after ∧
  length (playlist (snd s')) = length (before ++ missing :: after) - 1 ∧
  mp3ErrorMessage (snd s') = None ∧
  storage (fst s') = Some (StoredJson (before ++ after)).
Proof.
  intros Hok Hstored Hexist Hmissing. cbv zeta.
  destruct (startup_spec _ w Hok Hstored) as (Hcomp & Hstorage & _).
  rewrite Hcomp, Hstorage.
  assert (Hvalid :
    filter (fun item => is_Some (files w !! uri item)) (before ++ missing :: after)
    = before ++ after).
  { apply Forall_app in Hexist as [Hbefore Hafter].
    rewrite filter_app, filter_cons_False
      by (rewrite Hmissing; by intros [? ?]).
    f_equal; by apply filter_all. }
  rewrite Hvalid.
  split; [reflexivity|]. split; [|split; reflexivity].
  cbn [playlist with_mp3Loading with_playlist].
  rewrite !length_app. simpl. lia.
Qed.

Lemma load_drops_the_missing_track_witness :
  let gone := {| name := "c.mp3"; uri := "file:///doc/audio/c.mp3" |} in
  let w := with_storage (Some (StoredJson [track_a; gone; track_b])) sample_world in
  let s' := snd (startup (w, initialComp)) in
  playlist (snd s') = [track_a; track_b] ∧
  length (playlist (snd s')) = 3 - 1 ∧
  mp3ErrorMessage (snd s') = None ∧
  storage (fst s') = Some (StoredJson [track_a; track_b]).
Proof.
  cbv zeta.
  apply (load_drops_the_missing_track
           (with_storage
              (Some (StoredJson
                       [track_a;
                        {| name := "c.mp3"; uri := "file:///doc/audio/c.mp3" |};
                        track_b]))
              sample_world)
           [track_a] [track_b]
           {| name := "c.mp3"; uri := "file:///doc/audio/c.mp3" |}).
  - intros c. reflexivity.
  - reflexivity.
  - repeat constructor; vm_compute; by eexists.
  - vm_compute. reflexivity.
Defined.

(** *** The save effect *)

(** C4. Write suppression during load does not hold at mount.  The save
    effect of the first render runs with that render's [mp3Loading], which
    is still [false]: on a device whose store holds two tracks, once the
    component is mounted the load is still pending (the loading flag is up,
    the read of the stored playlist has not resumed) and the empty playlist
    has already been written over the store. *)
Theorem mount_writes_empty_playlist_while_loading :
  let y := boot sample_device in
  storage sample_device = Some (StoredJson [track_a; track_b]) ∧
  mp3Loading (snd (st y)) = true ∧
  pending_load y = Some (Ok (Some (StoredJson [track_a; track_b]))) ∧
  log (fst (st y)) = [GetItem; SetItem []] ∧
  storage (fst (st y)) = Some (StoredJson []).
Proof. vm_compute. repeat split; reflexivity. Qed.

(** Once loading is over, a turn that installs a new playlist array ends
    with that playlist written to the store. *)
Lemma mutation_is_persisted {A} (m : M A) (s : St) :
  let s1 := snd (m s) in
  mp3Loading (snd s1) = false →
  playlist_ref (snd s1) ≠ playlist_ref (snd s) →
  faults (fst s1) (SetItem (playlist (snd s1))) = false →
  storage (fst (snd (turn m s))) = Some (StoredJson (playlist (snd s1))) ∧
  snd (snd (turn m s)) = snd s1.
Proof.
  cbv zeta. intros Hloading Href Hok.
  unfold turn, rerender, deps_changed, saveEffect, saveMp3Playlist. cbn [fst snd].
  destruct (m s) as [res [w1 c1]]. cbn [fst snd] in *.
  assert (Hneq : (playlist_ref (snd s) =? playlist_ref c1) = false).
  { apply Nat.eqb_neq. congruence. }
  rewrite Hneq, Hloading. crank. simpl. rewrite Hok. done.
Qed.

(** *** Adding *)

(** Until its last step, the [try] block of [pickMp3File] leaves the
    component alone: when it throws, the component is as it was. *)
Lemma pickMp3File_try_throw (answer : DocumentResult) (s : St) :
  fst (pickMp3File_try answer s) = Throw →
  snd (snd (pickMp3File_try answer s)) = snd s.
Proof.
  destruct s as [w c]. unfold pickMp3File_try, add_to_playlist. crank.
  repeat (case_match; simplify_eq/=; try done).
Qed.

(** C9. Add is atomic on failure: when the picker is cancelled, or a step of
    the add throws, [playlist] is left as it was (the same array, with the
    same tracks) and so is the session; a throw is reported by the alert
    "Erro ao Adicionar Musica" and changes nothing else, and a cancelled
    pick changes nothing at all. *)
Theorem failed_add_leaves_playlist (answer : DocumentResult) (s : St) :
  canceled answer = true ∨ fst (pickMp3File_try answer s) = Throw →
  let s' := snd (pickMp3File answer s) in
  playlist (snd s') = playlist (snd s) ∧
  playlist_ref (snd s') = playlist_ref (snd s) ∧
  session (snd s') = session (snd s) ∧
  snd s' = match fst (pickMp3File_try answer s) with
           | Throw => with_alert AlertAddError (snd s)
           | Ok _ => snd s
           end.
Proof.
  intros Hfail. cbv zeta.
  assert (Hcomp :
    snd (snd (pickMp3File answer s))
    = match fst (pickMp3File_try answer s) with
      | Throw => with_alert AlertAddError (snd s)
      | Ok _ => snd s
      end).
  { unfold pickMp3File, try_catch.
    destruct (pickMp3File_try answer s) as [[[]|] s1] eqn:Htry; cbn [fst snd].
    - destruct Hfail as [Hcancel|Hthrow]; [|discriminate Hthrow].
      revert Htry. destruct s as [w c].
      unfold pickMp3File_try. crank.
      destruct (faults w GetDocument); [done|]. rewrite Hcancel.
      by intros [= <-].
    - pose proof (pickMp3File_try_throw answer s) as Hsame.
      rewrite Htry in Hsame. cbn [fst snd] in Hsame.
      crank. by rewrite Hsame. }
  rewrite Hcomp. destruct (fst (pickMp3File_try answer s)); done.
Qed.

Lemma failed_add_leaves_playlist_witness :
  let answer := picks "c.mp3" "file:///cache/c.mp3" in
  let s := st sample_ready in
  let s' := snd (pickMp3File answer s) in
  fst (pickMp3File_try answer s) = Throw ∧
  playlist (snd s') = playlist (snd s) ∧
  playlist_ref (snd s') = playlist_ref (snd s) ∧
  session (snd s') = session (snd s) ∧
  snd s' = match fst (pickMp3File_try answer s) with
           | Throw => with_alert AlertAddError (snd s)
           | Ok _ => snd s
           end.
Proof.
  cbv zeta. split; [vm_compute; reflexivity|].
  apply (failed_add_leaves_playlist (picks "c.mp3" "file:///cache/c.mp3")
           (st sample_ready)).
  right. vm_compute. reflexivity.
Defined.

(** *** What the handlers leave alone *)

Lemma stopMp3Audio_frame (r : Comp) : keeps beside_session (stopMp3Audio r).
Proof. unfold beside_session. solve_keeps. Qed.

Lemma saveEffect_frame (r : Comp) : keeps beside_store (saveEffect r).
Proof. unfold beside_store, session. solve_keeps. Qed.

Lemma rerender_frame (prev : Comp) : keeps beside_store (rerender prev).
Proof.
  intros s. unfold rerender.
  destruct (deps_changed prev (snd s)); [apply saveEffect_frame|done].
Qed.

(** *** Removing *)

Lemma filter_filter_same {A} (P : A → Prop) `{!∀ x, Decision (P x)} (l : list A) :
  filter P (filter P l) = filter P l.
Proof.
  apply filter_all, Forall_forall. intros x Hx.
  by apply list_elem_of_filter in Hx as [? _].
Qed.

(** The delete-and-filter step of [removeMp3Audio]. *)
Lemma removeMp3Audio_try_spec (itemUri fileName : string) (s1 : St) :
  let s' := snd (removeMp3Audio_try itemUri fileName s1) in
  fst (removeMp3Audio_try itemUri fileName s1) = Ok tt ∧
  log (fst s') = log (fst s1) ++ [Delete itemUri] ∧
  session (snd s') = session (snd s1) ∧
  live (fst s') = live (fst s1) ∧
  storage (fst s') = storage (fst s1) ∧
  (if faults (fst s1) (Delete itemUri)
   then playlist (snd s') = playlist (snd s1) ∧
        playlist_ref (snd s') = playlist_ref (snd s1) ∧
        files (fst s') = files (fst s1) ∧
        mp3ErrorMessage (snd s') = Some AlertRemoveError
   else playlist (snd s')
          = filter (fun item => uri item ≠ itemUri) (playlist (snd s1)) ∧
        playlist_ref (snd s') = S (playlist_ref (snd s1)) ∧
        files (fst s') = delete itemUri (files (fst s1)) ∧
        mp3ErrorMessage (snd s') = Some (AlertRemoved fileName)).
Proof.
  destruct s1 as [w1 c1]. cbv zeta. unfold removeMp3Audio_try. crank.
  destruct (faults w1 (Delete itemUri)); simpl; done.
Qed.

(** [removeMp3Audio] is its [try] statement, run after [stopMp3Audio] when
    the test on the held sound says so. *)
Lemma removeMp3Audio_unfold (r : Comp) (itemUri fileName : string) (s : St) :
  let stops :=
    match currentMp3Sound r with
    | Some x => bool_decide (_uri x = Some itemUri)
    | None => false
    end in
  removeMp3Audio r itemUri fileName s
  = removeMp3Audio_try itemUri fileName
      (if stops then snd (stopMp3Audio r s) else s).
Proof.
  cbv zeta. unfold removeMp3Audio, mbind, M_bind, bind.
  destruct (currentMp3Sound r) as [x|] eqn:Hcur;
    [destruct (bool_decide (_uri x = Some itemUri))|]; try reflexivity.
  pose proof (stopMp3Audio_never_throws r s) as Hstop.
  destruct (stopMp3Audio r s) as [[[]|] s1]; [done|discriminate Hstop].
Qed.

(** What [removeMp3Audio] leaves alone, whatever the platform does: the
    tracks whose uri differs from [itemUri], in their order (the playlist
    is either untouched or filtered), and, in every state, the session and
    the loaded sounds.  Its test [currentMp3Sound._uri === itemUri] reads a
    property that no sound has, so [stopMp3Audio] is never called and the
    only call made is the delete. *)
Lemma removeMp3Audio_frame (r : Comp) (itemUri fileName : string) (s : St) :
  let s' := snd (removeMp3Audio r itemUri fileName s) in
  let others := filter (fun item => uri item ≠ itemUri) in
  others (playlist (snd s')) = others (playlist (snd s)) ∧
  (playlist (snd s') = playlist (snd s) ∨
   playlist (snd s') = others (playlist (snd s))) ∧
  session (snd s') = session (snd s) ∧
  live (fst s') = live (fst s) ∧
  log (fst s') = log (fst s) ++ [Delete itemUri].
Proof.
  cbv zeta. rewrite removeMp3Audio_unfold. cbv zeta.
  assert (match currentMp3Sound r with
          | Some x => bool_decide (_uri x = Some itemUri)
          | None => false
          end = false) as -> by (by destruct (currentMp3Sound r)).
  destruct (removeMp3Audio_try_spec itemUri fileName s)
    as (_ & Hlog & Hsession & Hlive & _ & Hplaylist).
  split; [|split]; [| |done].
  - destruct (faults (fst s) (Delete itemUri));
      destruct Hplaylist as (-> & _); [done|]. apply filter_filter_same.
  - destruct (faults (fst s) (Delete itemUri));
      destruct Hplaylist as (-> & _); auto.
Qed.

(** C10.  The rest of the playlist is framed, but the removed track is not
    stopped.  With track a playing, its row's delete button removes the
    track from the playlist and deletes its file, and rewrites the store,
    while the session is left exactly as it was: a's sound stays the
    current one, playing and loaded, and neither a stop nor an unload is
    requested. *)
Theorem remove_leaves_the_removed_track_playing :
  let y := run [TapPlayPause track_a; PlaySettles 0] sample_ready in
  let a := {| key := 0; loaded_from := uri track_a |} in
  let y' := run [TapRemove track_a] y in
  currentMp3Sound (snd (st y)) = Some a ∧
  isMp3Playing (snd (st y)) = true ∧
  playlist (snd (st y)) = [track_a; track_b] ∧
  playlist (snd (st y')) = [track_b] ∧
  files (fst (st y')) !! uri track_a = None ∧
  session (snd (st y')) = session (snd (st y)) ∧
  sound <$> live (fst (st y')) = [a] ∧
  log (fst (st y'))
    = log (fst (st y)) ++ [Delete (uri track_a); SetItem [track_b]].
Proof. vm_compute. repeat split; reflexivity. Qed.

(** *** Adding, when the platform carries it out *)

Lemma pickMp3File_spec (fileName fileUri : string) (e : Entry) (w : World) (c : Comp) :
  (∀ x, faults w x = false) →
  files w !! fileUri = Some e →
  let destinationUri := AUDIO_DIR w +:+ fileName in
  let s' := snd (pickMp3File (picks fileName fileUri) (w, c)) in
  files (fst s') !! destinationUri = Some e ∧
  (∀ path, path ≠ destinationUri → path ≠ AUDIO_DIR w →
     files (fst s') !! path = files w !! path) ∧
  (∃ calls, log (fst s')
            = log w ++ calls ++ [Copy fileUri destinationUri]) ∧
  faults (fst s') = faults w ∧
  storage (fst s') = storage w ∧
  live (fst s') = live w ∧
  documentDirectory (fst s') = documentDirectory w ∧
  snd s' = if bool_decide (Exists (fun item => uri item = destinationUri)
                             (playlist c))
           then with_alert (AlertDuplicate fileName) c
           else with_playlist
                  (playlist c ++ [{| name := fileName; uri := destinationUri |}])
                  (with_alert (AlertAdded fileName) c).
Proof.
  intros Hok Hsrc. cbv zeta.
  assert (Hdir_eq : ∀ x, AUDIO_DIR (record_call x w) = AUDIO_DIR w)
    by reflexivity.
  unfold pickMp3File, pickMp3File_try, add_to_playlist, picks. crank.
  rewrite !Hok. simpl. rewrite !Hok, !Hdir_eq. simpl.
  destruct (files w !! AUDIO_DIR w) as [d|] eqn:Hdir.
  - rewrite bool_decide_eq_true_2 by by eexists. simpl.
    rewrite !Hok. simpl. rewrite Hsrc. simpl.
    destruct (bool_decide (Exists _ (playlist c))); simpl.
    + split; [by rewrite lookup_insert_eq|].
      split; [intros path Hne _; by rewrite lookup_insert_ne|].
      split; [|done].
      exists [GetDocument; GetInfo (AUDIO_DIR w)]. by rewrite <- !app_assoc.
    + split; [by rewrite lookup_insert_eq|].
      split; [intros path Hne _; by rewrite lookup_insert_ne|].
      split; [|done].
      exists [GetDocument; GetInfo (AUDIO_DIR w)]. by rewrite <- !app_assoc.
  - rewrite bool_decide_eq_false_2 by (by intros [? ?]). simpl.
    rewrite !Hok. simpl. rewrite Hdir. simpl. rewrite !Hok. simpl.
    assert (AUDIO_DIR w ≠ fileUri) by congruence.
    rewrite lookup_insert_ne by done. rewrite Hsrc. simpl.
    destruct (bool_decide (Exists _ (playlist c))); simpl.
    + split; [by rewrite lookup_insert_eq|].
      split; [intros path Hne Hne'; by rewrite !lookup_insert_ne|].
      split; [|done].
      exists [GetDocument; GetInfo (AUDIO_DIR w); MakeDirectory (AUDIO_DIR w)].
      by rewrite <- !app_assoc.
    + split; [by rewrite lookup_insert_eq|].
      split; [intros path Hne Hne'; by rewrite !lookup_insert_ne|].
      split; [|done].
      exists [GetDocument; GetInfo (AUDIO_DIR w); MakeDirectory (AUDIO_DIR w)].
      by rewrite <- !app_assoc.
Qed.

(** *** No two tracks with the same destination *)

(** C2, as stated, fails.  With a.mp3 in the playlist, a file called a.mp3
    is picked again: the playlist is left alone and the "already in the
    playlist" alert is raised, but by then the picked file has been copied
    over the file of the existing track. *)
Lemma duplicate_add_overwrites_the_file :
  let y := run [TapAdd (picks "a.mp3" "file:///cache/a.mp3")] sample_ready in
  playlist (snd (st sample_ready)) = [track_a; track_b] ∧
  files (fst (st sample_ready)) !! uri track_a = Some (File "AAAA") ∧
  mp3ErrorMessage (snd (st y)) = Some (AlertDuplicate "a.mp3") ∧
  playlist (snd (st y)) = [track_a; track_b] ∧
  files (fst (st y)) !! uri track_a = Some (File "NEW!") ∧
  last (log (fst (st y))) = Some (Copy "file:///cache/a.mp3" (uri track_a)).
Proof. vm_compute. repeat split; reflexivity. Qed.

(** The save effect writes the playlist of the render it runs for. *)
Lemma rerender_store_inv (prev : Comp) (s : St) :
  store_inv s → store_inv (snd (rerender prev s)).
Proof.
  destruct s as [w c]. intros [Hplaylist Hstored].
  unfold rerender, saveEffect, saveMp3Playlist. cbn [fst snd].
  destruct (deps_changed prev c); [|done].
  destruct (negb (mp3Loading c)); [|done]. crank.
  destruct (faults w (SetItem (playlist c))); simpl; split; try done.
  intros l [= <-]. done.
Qed.

Lemma turn_store_inv {A} (m : M A) (s : St) :
  store_inv (snd (m s)) → store_inv (snd (turn m s)).
Proof. intros Hm. unfold turn. cbn [snd]. by apply rerender_store_inv. Qed.

(** A handler that leaves the playlist and the store alone keeps the
    invariant. *)
Lemma keeps_store_inv {A} (m : M A) (s : St) :
  keeps (fun s => (playlist (snd s), storage (fst s))) m →
  store_inv s → store_inv (snd (m s)).
Proof.
  intros Hkeep [Hplaylist Hstored]. specialize (Hkeep s).
  injection Hkeep as Hp Hs. unfold store_inv. by rewrite Hp, Hs.
Qed.

Lemma keeps_validate {B} (f : St → B) (parsed valid : list Track) :
  (∀ path, keeps f (getInfoAsync path)) → keeps f (validate parsed valid).
Proof.
  intros Hinfo. revert valid.
  induction parsed as [|item rest IH]; intros valid; cbn [validate].
  - apply keeps_ret.
  - apply keeps_bind; [apply Hinfo | intros b; apply IH].
Qed.

(** The loop only ever keeps items of the parsed playlist, in order. *)
Lemma validate_sublist (parsed valid res : list Track) (s s' : St) :
  validate parsed valid s = (Ok res, s') →
  ∃ kept, res = valid ++ kept ∧ sublist kept parsed.
Proof.
  revert valid s. induction parsed as [|item rest IH]; intros valid s.
  - intros [= <- _]. exists []. by rewrite app_nil_r.
  - cbn [validate]. unfold mbind, M_bind, bind.
    destruct (getInfoAsync (uri item) s) as [[[]|] s1]; [| |done].
    + intros (kept & -> & Hsub)%IH. exists (item :: kept).
      rewrite <- app_assoc. split; [done|]. by constructor.
    + intros (kept & -> & Hsub)%IH. exists kept.
      split; [done|]. by constructor.
Qed.

Lemma NoDup_uri_sublist (kept l : list Track) :
  sublist kept l → NoDup (uri <$> l) → NoDup (uri <$> kept).
Proof.
  intros Hsub Hnodup. apply (sublist_NoDup _ (uri <$> l)); [exact Hnodup|].
  by apply fmap_sublist.
Qed.

Lemma loadMp3Playlist_end_store_inv (p : Result (option Stored)) (s : St) :
  (∀ o, p = Ok o → stored_ok o) →
  store_inv s → store_inv (snd (loadMp3Playlist_end p s)).
Proof.
  intros Hp [Hplaylist Hstored]. destruct s as [w c].
  assert (Hstorage : keeps (fun s => storage (fst s)) (loadMp3Playlist_end p)).
  { unfold loadMp3Playlist_end.
    apply keeps_try_finally; [|solve_keeps].
    apply keeps_try_catch; [|solve_keeps].
    apply keeps_bind; [solve_keeps|]. intros [[l| |]|]; try solve_keeps.
    apply keeps_bind; [|solve_keeps].
    apply keeps_validate. intros path. solve_keeps. }
  split; [|by rewrite (Hstorage (w, c))].
  unfold loadMp3Playlist_end, try_finally, try_catch. cbn [fst snd].
  destruct p as [[[l| |]|]|]; crank; try done.
  destruct (validate l [] (w, c)) as [[res|] s1] eqn:Hvalidate; simpl.
  - apply validate_sublist in Hvalidate as (kept & -> & Hsub).
    eapply NoDup_uri_sublist; [done|]. by apply (Hp (Some (StoredJson l))).
  - assert (Hkeep : keeps (fun s => playlist (snd s)) (validate l [])).
    { apply keeps_validate. intros path. solve_keeps. }
    specialize (Hkeep (w, c)). rewrite Hvalidate in Hkeep.
    cbn [fst snd] in Hkeep. by rewrite Hkeep.
Qed.

(** An add either leaves the playlist alone or appends one track whose uri
    was not in it. *)
Lemma pickMp3File_playlist (answer : DocumentResult) (s : St) :
  let s' := snd (pickMp3File answer s) in
  playlist (snd s') = playlist (snd s) ∨
  ∃ item, playlist (snd s') = playlist (snd s) ++ [item] ∧
          uri item ∉ uri <$> playlist (snd s).
Proof.
  destruct s as [w c]. cbv zeta.
  unfold pickMp3File, pickMp3File_try, add_to_playlist. crank.
  repeat (case_match; simplify_eq/=; auto).
  all: right; eexists; (split; [done|]); simpl.
  all: match goal with H : negb (bool_decide _) = true |- _ =>
         apply negb_true_iff, bool_decide_eq_false in H; rename H into Hnew
       end.
  all: intros (item & Huri & Hin)%list_elem_of_fmap; apply Hnew.
  all: apply Exists_exists; eauto.
Qed.

Lemma pickMp3File_store_inv (answer : DocumentResult) (s : St) :
  store_inv s → store_inv (snd (pickMp3File answer s)).
Proof.
  intros [Hplaylist Hstored]. split.
  - destruct (pickMp3File_playlist answer s) as [->|(item & -> & Hnew)];
      [done|].
    rewrite fmap_app. apply NoDup_app. split; [done|].
    split; [|apply NoDup_singleton].
    intros x Hx ->%list_elem_of_singleton. done.
  - assert (Hkeep : keeps (fun s => storage (fst s)) (pickMp3File answer))
      by solve_keeps.
    by rewrite (Hkeep s).
Qed.

Lemma removeMp3Audio_store_inv (r : Comp) (itemUri fileName : string) (s : St) :
  store_inv s → store_inv (snd (removeMp3Audio r itemUri fileName s)).
Proof.
  intros Hinv. rewrite removeMp3Audio_unfold. cbv zeta.
  set (stops := match currentMp3Sound r with
                | Some x => bool_decide (_uri x = Some itemUri)
                | None => false
                end).
  set (s1 := if stops then snd (stopMp3Audio r s) else s).
  assert (Hinv1 : store_inv s1).
  { subst s1. destruct stops; [|done].
    apply keeps_store_inv; [solve_keeps|done]. }
  destruct Hinv1 as [Hplaylist Hstored].
  destruct (removeMp3Audio_try_spec itemUri fileName s1)
    as (_ & _ & _ & _ & Hstorage & Hresult).
  split; [|by rewrite Hstorage].
  destruct (faults (fst s1) (Delete itemUri)); destruct Hresult as (-> & _);
    [done|].
  eapply NoDup_uri_sublist; [|done]. apply sublist_filter.
Qed.

Lemma boot_sys_inv (w : World) : stored_ok (storage w) → sys_inv (boot w).
Proof.
  intros Hstored. unfold sys_inv, boot. cbn [st pending_load]. split.
  - unfold mount. apply turn_store_inv.
    unfold mount_effects, loadMp3Playlist_begin, saveEffect, saveMp3Playlist.
    crank. simpl.
    repeat (case_match; simplify_eq/=);
      (split; [apply NoDup_nil_2|]); try done;
      intros l [= <-]; apply NoDup_nil_2.
  - unfold mount, mount_effects, loadMp3Playlist_begin, saveEffect,
      saveMp3Playlist. crank. simpl.
    repeat (case_match; simplify_eq/=); intros o [= <-]; done.
Qed.

Lemma exec_sys_inv (e : Event) (y : Sys) : sys_inv y → sys_inv (exec e y).
Proof.
  intros Hinv. pose proof Hinv as [Hst Hpending]. destruct e; cbn [exec].
  - (* LoadSettles *)
    destruct (pending_load y) as [p|] eqn:Hp; [|done].
    split; [|done]. cbn [st]. apply turn_store_inv.
    apply loadMp3Playlist_end_store_inv; [|done].
    intros o ->. by apply Hpending.
  - (* TapPlayPause *)
    destruct (bool_decide _); [|done].
    destruct (row_is_playing _ _).
    + split; [|done]. cbn [st]. apply turn_store_inv.
      apply keeps_store_inv; [solve_keeps|done].
    + assert (Hbegin : store_inv
        (snd (turn (playMp3Audio_begin (snd (st y)) (uri item)) (st y)))).
      { apply turn_store_inv. apply keeps_store_inv; [solve_keeps|done]. }
      destruct (turn _ (st y)) as [[[]|] s1]; by split.
  - (* PlaySettles *)
    destruct (pending_plays y !! i) as [[r' itemUri]|]; [|done].
    split; [|done]. cbn [st]. apply turn_store_inv.
    apply keeps_store_inv; [solve_keeps|done].
  - (* TapStop *)
    destruct (currentMp3Sound _); [|done].
    split; [|done]. cbn [st]. apply turn_store_inv.
    apply keeps_store_inv; [solve_keeps|done].
  - (* TapAdd *)
    split; [|done]. cbn [st]. apply turn_store_inv.
    by apply pickMp3File_store_inv.
  - (* TapRemove *)
    destruct (bool_decide _); [|done].
    split; [|done]. cbn [st]. apply turn_store_inv.
    by apply removeMp3Audio_store_inv.
  - (* StatusUpdate *)
    destruct (handle_of _ _); [|done].
    split; [|done]. cbn [st]. apply turn_store_inv.
    apply keeps_store_inv; [solve_keeps|done].
  - (* Relaunch *)
    apply boot_sys_inv. by destruct Hst.
Qed.

Lemma run_sys_inv (events : list Event) (y : Sys) :
  sys_inv y → sys_inv (run events y).
Proof.
  revert y. induction events as [|e events IH]; intros y Hy; [done|].
  cbn [run foldl]. apply IH. by apply exec_sys_inv.
Qed.

(** C2, amended.  In every state the app can reach, from a first launch on
    a device whose store is empty or holds a playlist without repeated
    uris, no two tracks of the playlist have the same uri; and an add whose
    destination is the uri of a track already listed leaves the playlist as
    it was (the same array) and raises the "already in the playlist" alert,
    the picked file having been copied onto the destination. *)
Theorem duplicate_add_keeps_playlist
    (w0 : World) (y : Sys) (fileName fileUri : string) (e : Entry) :
  stored_ok (storage w0) →
  reachable_from w0 y →
  let s := st y in
  let destinationUri := AUDIO_DIR (fst s) +:+ fileName in
  NoDup (uri <$> playlist (snd s)) ∧
  ((∀ x, faults (fst s) x = false) →
   files (fst s) !! fileUri = Some e →
   Exists (fun item => uri item = destinationUri) (playlist (snd s)) →
   let s' := snd (pickMp3File (picks fileName fileUri) s) in
   playlist (snd s') = playlist (snd s) ∧
   playlist_ref (snd s') = playlist_ref (snd s) ∧
   mp3ErrorMessage (snd s') = Some (AlertDuplicate fileName) ∧
   files (fst s') !! destinationUri = Some e ∧
   last (log (fst s')) = Some (Copy fileUri destinationUri)).
Proof.
  intros Hstored [events ->]. cbv zeta.
  pose proof (run_sys_inv events _ (boot_sys_inv w0 Hstored)) as [[Hnodup _] _].
  split; [exact Hnodup|].
  intros Hok Hsrc Hdup.
  destruct (st (run events (boot w0))) as [w c] eqn:Hs. cbn [fst snd] in *.
  destruct (pickMp3File_spec fileName fileUri e w c Hok Hsrc)
    as (Hdest & _ & (calls & Hlog) & _ & _ & _ & _ & Hcomp).
  rewrite Hcomp, bool_decide_eq_true_2 by done.
  repeat split; [done|].
  rewrite Hlog, !app_assoc. apply last_snoc.
Qed.

Lemma duplicate_add_keeps_playlist_witness :
  let s := st sample_ready in
  let s' := snd (pickMp3File (picks "a.mp3" "file:///cache/a.mp3") s) in
  NoDup (uri <$> playlist (snd s)) ∧
  playlist (snd s') = playlist (snd s) ∧
  playlist_ref (snd s') = playlist_ref (snd s) ∧
  mp3ErrorMessage (snd s') = Some (AlertDuplicate "a.mp3") ∧
  files (fst s') !! (AUDIO_DIR (fst s) +:+ "a.mp3") = Some (File "NEW!") ∧
  last (log (fst s'))
  = Some (Copy "file:///cache/a.mp3" (AUDIO_DIR (fst s) +:+ "a.mp3")).
Proof.
  cbv zeta.
  assert (Hstored : stored_ok (storage sample_device)).
  { intros l [= <-]. apply (bool_decide_unpack _). vm_compute. exact I. }
  assert (Hreach : reachable_from sample_device sample_ready).
  { exists [LoadSettles]. reflexivity. }
  destruct (duplicate_add_keeps_playlist sample_device sample_ready
              "a.mp3" "file:///cache/a.mp3" (File "NEW!") Hstored Hreach)
    as [Hnodup Hadd].
  split; [exact Hnodup|].
  apply Hadd.
  - intros x. vm_compute. reflexivity.
  - vm_compute. reflexivity.
  - apply Exists_cons_hd. vm_compute. reflexivity.
Defined.

(** *** Round trip *)

(** A turn that installs a new playlist array, once loading is over and on
    a platform that rejects nothing: the playlist is stored, and nothing
    else of the store's surroundings moves. *)
Lemma turn_saves {A} (m : M A) (s : St) :
  let s1 := snd (m s) in
  let s2 := snd (turn m s) in
  (∀ x, faults (fst s1) x = false) →
  mp3Loading (snd s1) = false →
  playlist_ref (snd s1) ≠ playlist_ref (snd s) →
  storage (fst s2) = Some (StoredJson (playlist (snd s1))) ∧
  snd s2 = snd s1 ∧
  beside_store s2 = beside_store s1.
Proof.
  cbv zeta. intros Hok Hloading Href.
  destruct (mutation_is_persisted m s Hloading Href (Hok _)) as [Hstorage Hcomp].
  split; [done|]. split; [done|].
  unfold turn. cbn [snd]. apply rerender_frame.
Qed.

(** The remove of a listed track, once loading is over and on a platform
    that rejects nothing. *)
Lemma removeMp3Audio_turn_spec (itemUri fileName : string) (s : St) :
  (∀ x, faults (fst s) x = false) →
  mp3Loading (snd s) = false →
  let s' := snd (turn (press (fun r => removeMp3Audio r itemUri fileName)) s) in
  playlist (snd s') = filter (fun item => uri item ≠ itemUri) (playlist (snd s)) ∧
  files (fst s') = delete itemUri (files (fst s)) ∧
  storage (fst s') = Some (StoredJson (playlist (snd s'))) ∧
  mp3ErrorMessage (snd s') = Some (AlertRemoved fileName) ∧
  faults (fst s') = faults (fst s) ∧
  mp3Loading (snd s') = false.
Proof.
  intros Hok Hloading. cbv zeta.
  set (m := press (fun r => removeMp3Audio r itemUri fileName)).
  set (stops := match currentMp3Sound (snd s) with
                | Some x => bool_decide (_uri x = Some itemUri)
                | None => false
                end).
  set (s0 := if stops then snd (stopMp3Audio (snd s) s) else s).
  assert (Hs0 : beside_session s0 = beside_session s).
  { subst s0. destruct stops; [apply stopMp3Audio_frame|done]. }
  injection Hs0 as Hfiles0 Hfaults0 _ _ Hplaylist0 Href0 Hloading0.
  assert (Hm : m s = removeMp3Audio_try itemUri fileName s0).
  { subst m. unfold press. by rewrite removeMp3Audio_unfold. }
  destruct (removeMp3Audio_try_spec itemUri fileName s0)
    as (_ & _ & _ & _ & _ & Hresult).
  rewrite Hfaults0, Hok in Hresult.
  destruct Hresult as (Hplaylist1 & Href1 & Hfiles1 & Halert1).
  rewrite <- Hm in Hplaylist1, Href1, Hfiles1, Halert1.
  assert (Hkeep : keeps (fun s => (faults (fst s), mp3Loading (snd s)))
                    (removeMp3Audio_try itemUri fileName)) by solve_keeps.
  specialize (Hkeep s0). rewrite <- Hm in Hkeep.
  injection Hkeep as Hfaults1 Hloading1.
  destruct (turn_saves m s) as (Hstorage2 & Hcomp2 & Hframe2).
  { intros x. by rewrite Hfaults1, Hfaults0. }
  { by rewrite Hloading1, Hloading0. }
  { rewrite Href1, Href0. lia. }
  injection Hframe2 as Hfiles2 Hfaults2 _ _ _ _ _ _.
  unfold turn in *. cbn [fst snd] in *.
  rewrite Hcomp2, Hstorage2, Hfiles2, Hfaults2.
  rewrite Hplaylist1, Hfiles1, Halert1, Hfaults1, Hloading1.
  by rewrite Hplaylist0, Hfiles0, Hfaults0, Hloading0.
Qed.

(** The add of a file whose destination is not listed yet, once loading is
    over and on a platform that rejects nothing. *)
Lemma pickMp3File_turn_spec (fileName fileUri : string) (e : Entry) (s : St) :
  (∀ x, faults (fst s) x = false) →
  mp3Loading (snd s) = false →
  files (fst s) !! fileUri = Some e →
  let destinationUri := AUDIO_DIR (fst s) +:+ fileName in
  ¬ Exists (fun item => uri item = destinationUri) (playlist (snd s)) →
  let s' := snd (turn (pickMp3File (picks fileName fileUri)) s) in
  playlist (snd s')
    = playlist (snd s) ++ [{| name := fileName; uri := destinationUri |}] ∧
  files (fst s') !! destinationUri = Some e ∧
  storage (fst s') = Some (StoredJson (playlist (snd s'))) ∧
  mp3ErrorMessage (snd s') = Some (AlertAdded fileName) ∧
  faults (fst s') = faults (fst s) ∧
  mp3Loading (snd s') = false.
Proof.
  destruct s as [w c]. cbn [fst snd]. intros Hok Hloading Hsrc Hnew. cbv zeta.
  destruct (pickMp3File_spec fileName fileUri e w c Hok Hsrc)
    as (Hdest1 & _ & _ & Hfaults1 & _ & _ & _ & Hcomp1).
  rewrite bool_decide_eq_false_2 in Hcomp1 by done.
  destruct (turn_saves (pickMp3File (picks fileName fileUri)) (w, c))
    as (Hstorage2 & Hcomp2 & Hframe2).
  { intros x. by rewrite Hfaults1. }
  { by rewrite Hcomp1. }
  { rewrite Hcomp1. cbn. lia. }
  injection Hframe2 as Hfiles2 Hfaults2 _ _ _ _ _ _.
  unfold turn in *. cbn [fst snd] in *.
  rewrite Hcomp2, Hstorage2, Hfiles2, Hfaults2, Hfaults1, Hcomp1.
  by rewrite Hdest1.
Qed.

(** [loadMp3Playlist] run to its end, with the save effect that follows, on
    a platform that rejects nothing. *)
Lemma loadMp3Playlist_turn_spec (stored : list Track) (s : St) :
  (∀ x, faults (fst s) x = false) →
  storage (fst s) = Some (StoredJson stored) →
  let s' := snd (turn loadMp3Playlist s) in
  playlist (snd s')
    = filter (fun item => is_Some (files (fst s) !! uri item)) stored ∧
  files (fst s') = files (fst s).
Proof.
  destruct s as [w c]. cbn [fst snd]. intros Hok Hstored. cbv zeta.
  assert (Hload : snd (loadMp3Playlist (w, c))
    = (with_log (log w ++ [GetItem]
                 ++ ((fun item => GetInfo (uri item)) <$> stored)) w,
       with_mp3Loading false
         (with_playlist
            (filter (fun item => is_Some (files w !! uri item)) stored)
            (with_mp3Loading true c)))).
  { unfold loadMp3Playlist, loadMp3Playlist_begin, loadMp3Playlist_end.
    crank. rewrite Hok. simpl. rewrite Hstored.
    rewrite validate_spec by (intros; apply Hok). simpl.
    by rewrite <- app_assoc. }
  pose proof (rerender_frame c (snd (loadMp3Playlist (w, c)))) as Hframe.
  injection Hframe as Hfiles _ _ _ Hplaylist _ _ _.
  unfold turn. cbn [fst snd]. rewrite Hfiles, Hplaylist, Hload. done.
Qed.

(** C8. Add/remove round trip: from an empty playlist, on a platform that
    rejects nothing and once loading is over, adding a picked file lists it
    and puts its content at the destination; removing that track empties the
    playlist, the store and the destination; a load made then (the function
    run again, or the app relaunched) yields the empty playlist, and the
    file is still absent.  Removing the track once more, with its file
    already absent, is reported as a success. *)
Theorem add_remove_load_round_trip
    (w : World) (c : Comp) (fileName fileUri : string) (e : Entry) :
  (∀ x, faults w x = false) →
  playlist c = [] →
  mp3Loading c = false →
  files w !! fileUri = Some e →
  let destinationUri := AUDIO_DIR w +:+ fileName in
  let remove := press (fun r => removeMp3Audio r destinationUri fileName) in
  let added := snd (turn (pickMp3File (picks fileName fileUri)) (w, c)) in
  let removed := snd (turn remove added) in
  let loaded := snd (turn loadMp3Playlist removed) in
  let relaunched := snd (startup (with_live [] (fst removed), initialComp)) in
  let again := snd (turn remove removed) in
  (playlist (snd added) = [{| name := fileName; uri := destinationUri |}] ∧
   files (fst added) !! destinationUri = Some e) ∧
  (playlist (snd removed) = [] ∧
   files (fst removed) !! destinationUri = None ∧
   storage (fst removed) = Some (StoredJson [])) ∧
  (playlist (snd loaded) = [] ∧
   files (fst loaded) !! destinationUri = None) ∧
  (playlist (snd relaunched) = [] ∧
   files (fst relaunched) !! destinationUri = None) ∧
  (playlist (snd again) = [] ∧
   mp3ErrorMessage (snd again) = Some (AlertRemoved fileName)).
Proof.
  intros Hok Hempty Hloading Hsrc. cbv zeta.
  set (dest := AUDIO_DIR w +:+ fileName).
  set (remove := press (fun r => removeMp3Audio r dest fileName)).
  (* add *)
  destruct (pickMp3File_turn_spec fileName fileUri e (w, c))
    as (Hplaylist1 & Hfile1 & _ & _ & Hfaults1 & Hloading1); try done.
  { cbn [fst snd]. rewrite Hempty. by intros ?%Exists_nil. }
  cbn [fst snd] in *. fold dest in Hplaylist1, Hfile1.
  set (added := snd (turn (pickMp3File (picks fileName fileUri)) (w, c))) in *.
  rewrite Hempty in Hplaylist1. cbn [app] in Hplaylist1.
  assert (Hok1 : ∀ x, faults (fst added) x = false).
  { intros x. by rewrite Hfaults1. }
  (* remove *)
  destruct (removeMp3Audio_turn_spec dest fileName added Hok1 Hloading1)
    as (Hplaylist2 & Hfiles2 & Hstorage2 & _ & Hfaults2 & Hloading2).
  fold remove in Hplaylist2, Hfiles2, Hstorage2, Hfaults2, Hloading2.
  set (removed := snd (turn remove added)) in *.
  rewrite Hplaylist1 in Hplaylist2.
  rewrite filter_cons_False, filter_nil in Hplaylist2
    by (cbn; by intros []).
  rewrite Hplaylist2 in Hstorage2.
  assert (Hfile2 : files (fst removed) !! dest = None).
  { rewrite Hfiles2. apply lookup_delete_eq. }
  assert (Hok2 : ∀ x, faults (fst removed) x = false).
  { intros x. by rewrite Hfaults2. }
  (* load *)
  destruct (loadMp3Playlist_turn_spec [] removed Hok2 Hstorage2)
    as (Hplaylist3 & Hfiles3).
  destruct (startup_spec [] (with_live [] (fst removed)) Hok2 Hstorage2)
    as (Hcomp4 & _ & Hfiles4 & _).
  (* remove again *)
  destruct (removeMp3Audio_turn_spec dest fileName removed Hok2 Hloading2)
    as (Hplaylist5 & _ & _ & Halert5 & _ & _).
  fold remove in Hplaylist5, Halert5.
  rewrite Hplaylist2 in Hplaylist5.
  repeat split; try done.
  - by rewrite Hfiles3.
  - by rewrite Hcomp4.
  - by rewrite Hfiles4.
Qed.

Lemma add_remove_load_round_trip_witness :
  let w := sample_world in
  let c := initialComp in
  let remove :=
    press (fun r => removeMp3Audio r "file:///doc/audio/c.mp3" "c.mp3") in
  let added :=
    snd (turn (pickMp3File (picks "c.mp3" "file:///cache/a.mp3")) (w, c)) in
  let removed := snd (turn remove added) in
  let loaded := snd (turn loadMp3Playlist removed) in
  let relaunched := snd (startup (with_live [] (fst removed), initialComp)) in
  let again := snd (turn remove removed) in
  (playlist (snd added)
     = [{| name := "c.mp3"; uri := "file:///doc/audio/c.mp3" |}] ∧
   files (fst added) !! "file:///doc/audio/c.mp3" = Some (File "NEW!")) ∧
  (playlist (snd removed) = [] ∧
   files (fst removed) !! "file:///doc/audio/c.mp3" = None ∧
   storage (fst removed) = Some (StoredJson [])) ∧
  (playlist (snd loaded) = [] ∧
   files (fst loaded) !! "file:///doc/audio/c.mp3" = None) ∧
  (playlist (snd relaunched) = [] ∧
   files (fst relaunched) !! "file:///doc/audio/c.mp3" = None) ∧
  (playlist (snd again) = [] ∧
   mp3ErrorMessage (snd again) = Some (AlertRemoved "c.mp3")).
Proof.
  cbv zeta.
  apply (add_remove_load_round_trip sample_world initialComp
           "c.mp3" "file:///cache/a.mp3" (File "NEW!")).
  - intros x. reflexivity.
  - reflexivity.
  - reflexivity.
  - vm_compute. reflexivity.
Defined.

(** * Further properties of the player *)

(** ** Failures *)

Lemma try_catch_never_throws {A} (body handler : M A) (s : St) :
  (∀ s', ∃ a, fst (handler s') = Ok a) →
  ∃ a, fst (try_catch body handler s) = Ok a.
Proof.
  intros Hhandler. unfold try_catch.
  destruct (body s) as [[a|] s1]; [by exists a|apply Hhandler].
Qed.

Lemma pickMp3File_never_throws (answer : DocumentResult) (s : St) :
  fst (pickMp3File answer s) = Ok tt.
Proof.
  destruct (try_catch_never_throws (pickMp3File_try answer)
              (showMp3CustomAlert AlertAddError) s) as [[] Hok]; [|done].
  intros s'. by exists tt.
Qed.

Lemma removeMp3Audio_never_throws (r : Comp) (itemUri fileName : string) (s : St) :
  fst (removeMp3Audio r itemUri fileName s) = Ok tt.
Proof.
  rewrite removeMp3Audio_unfold. cbv zeta.
  by destruct (removeMp3Audio_try_spec itemUri fileName
                 (if match currentMp3Sound r with
                     | Some x => bool_decide (_uri x = Some itemUri)
                     | None => false
                     end
                  then snd (stopMp3Audio r s) else s)) as [Hok _].
Qed.

Lemma loadMp3Playlist_end_never_throws (p : Result (option Stored)) (s : St) :
  fst (loadMp3Playlist_end p s) = Ok tt.
Proof.
  unfold loadMp3Playlist_end, try_finally.
  destruct (try_catch_never_throws
              (storedPlaylist ← await p;
               match storedPlaylist with
               | Some (StoredJson parsedPlaylist) =>
                   validPlaylist ← validate parsedPlaylist [];
                   setPlaylist validPlaylist
               | Some StoredMalformed => throw
               | Some StoredEmpty | None => mret tt
               end)
              (showMp3CustomAlert AlertLoadError) s) as [[] Hok].
  { intros s'. by exists tt. }
  destruct (try_catch _ _ s) as [res s1]. cbn [fst] in Hok. by subst res.
Qed.

Lemma saveEffect_never_throws (r : Comp) (s : St) :
  fst (saveEffect r s) = Ok tt.
Proof.
  unfold saveEffect, saveMp3Playlist. destruct (negb (mp3Loading r)); [|done].
  destruct (try_catch_never_throws (setItem (playlist r))
              (showMp3CustomAlert AlertSaveError) s) as [[] Hok]; [|done].
  intros s'. by exists tt.
Qed.

Lemma onMp3PlaybackStatusUpdate_never_throws
    (captured : option Sound) (status : Status) (s : St) :
  fst (onMp3PlaybackStatusUpdate captured status s) = Ok tt.
Proof.
  unfold onMp3PlaybackStatusUpdate.
  destruct (didJustFinish status), captured; crank; reflexivity.
Qed.

(** X1. Every platform failure inside the handlers for add, remove, pause,
    stop, load, save and status updates is caught: whatever the platform
    rejects and whatever state they run in, these handlers return normally
    (their failures are alerts, never rejected promises). *)
Theorem handlers_catch_platform_failures
    (r : Comp) (answer : DocumentResult) (itemUri fileName : string)
    (p : Result (option Stored)) (captured : option Sound) (status : Status)
    (s : St) :
  fst (pickMp3File answer s) = Ok tt ∧
  fst (removeMp3Audio r itemUri fileName s) = Ok tt ∧
  fst (pauseMp3Audio r s) = Ok tt ∧
  fst (stopMp3Audio r s) = Ok tt ∧
  fst (loadMp3Playlist_end p s) = Ok tt ∧
  fst (saveEffect r s) = Ok tt ∧
  fst (onMp3PlaybackStatusUpdate captured status s) = Ok tt.
Proof.
  split; [apply pickMp3File_never_throws|].
  split; [apply removeMp3Audio_never_throws|].
  split; [apply pauseMp3Audio_never_throws|].
  split; [apply stopMp3Audio_never_throws|].
  split; [apply loadMp3Playlist_end_never_throws|].
  split; [apply saveEffect_never_throws|].
  apply onMp3PlaybackStatusUpdate_never_throws.
Qed.


(** ** Loading that finds nothing usable *)



(** ** Rules for preserved properties *)

Section Preserves.
Context (P : St → Prop).

Lemma preserves_ret {A} (a : A) : preserves P (mret a).
Proof. by intros s. Qed.

Lemma preserves_throw {A} : preserves P (@throw A).
Proof. by intros s. Qed.

Lemma preserves_await {A} (p : Result A) : preserves P (await p).
Proof. by intros s. Qed.

Lemma preserves_get_world : preserves P get_world.
Proof. by intros s. Qed.

Lemma preserves_get_comp : preserves P get_comp.
Proof. by intros s. Qed.

Lemma preserves_bind {A C} (m : M A) (k : A → M C) :
  preserves P m → (∀ a, preserves P (k a)) → preserves P (m ≫= k).
Proof.
  intros Hm Hk s Hs. unfold mbind, M_bind, bind.
  specialize (Hm s Hs). destruct (m s) as [[a|] s1]; cbn [snd] in *;
    [by apply Hk | done].
Qed.

Lemma preserves_try_catch {A} (body handler : M A) :
  preserves P body → preserves P handler → preserves P (try_catch body handler).
Proof.
  intros Hbody Hhandler s Hs. unfold try_catch.
  specialize (Hbody s Hs). destruct (body s) as [[a|] s1]; cbn [snd] in *;
    [done | by apply Hhandler].
Qed.

Lemma preserves_try_finally {A} (body : M A) (fin : M unit) :
  preserves P body → preserves P fin → preserves P (try_finally body fin).
Proof.
  intros Hbody Hfin s Hs. unfold try_finally.
  specialize (Hbody s Hs). destruct (body s) as [res s1]. cbn [snd] in *.
  specialize (Hfin s1 Hbody). by destruct (fin s1) as [[[]|] s2].
Qed.

Lemma preserves_not_awaited {A} (m : M A) :
  preserves P m → preserves P (not_awaited m).
Proof. intros Hm s. apply Hm. Qed.

Lemma preserves_attempt {A} (m : M A) : preserves P m → preserves P (attempt m).
Proof. intros Hm s. apply Hm. Qed.

Lemma preserves_press {A} (handler : Comp → M A) :
  (∀ r, preserves P (handler r)) → preserves P (press handler).
Proof. intros Hh s. apply Hh. Qed.

Lemma preserves_modify_world (g : World → World) :
  (∀ w c, P (w, c) → P (g w, c)) → preserves P (modify_world g).
Proof. intros Hg [w c]. apply Hg. Qed.

Lemma preserves_modify_comp (g : Comp → Comp) :
  (∀ w c, P (w, c) → P (w, g c)) → preserves P (modify_comp g).
Proof. intros Hg [w c]. apply Hg. Qed.

Lemma preserves_call (c : Call) :
  (∀ w c', P (w, c') → P (record_call c w, c')) → preserves P (call c).
Proof.
  intros Hg [w c'] Hs. unfold call. cbn [fst snd].
  destruct (faults w c); by apply Hg.
Qed.

Lemma preserves_validate (parsed valid : list Track) :
  (∀ path, preserves P (getInfoAsync path)) →
  preserves P (validate parsed valid).
Proof.
  intros Hinfo. revert valid.
  induction parsed as [|item rest IH]; intros valid; cbn [validate].
  - apply preserves_ret.
  - apply preserves_bind; [apply Hinfo | intros b; apply IH].
Qed.

Lemma preserves_rerender (prev : Comp) :
  (∀ r, preserves P (saveEffect r)) → preserves P (rerender prev).
Proof.
  intros Hsave s Hs. unfold rerender.
  destruct (deps_changed prev (snd s)); [by apply Hsave|done].
Qed.

Lemma preserves_turn {A} (m : M A) :
  (∀ r, preserves P (saveEffect r)) → preserves P m → preserves P (turn m).
Proof.
  intros Hsave Hm s Hs. unfold turn. cbn [snd].
  apply preserves_rerender; [done|]. by apply Hm.
Qed.

(** A property of the state that every handler preserves, and that holds
    when the component is mounted, holds after every event. *)
Lemma exec_preserves (e : Event) (y : Sys) :
  (∀ r, preserves P (saveEffect r)) →
  (∀ p, preserves P (loadMp3Playlist_end p)) →
  (∀ r, preserves P (pauseMp3Audio r)) →
  (∀ r itemUri, preserves P (playMp3Audio_begin r itemUri)) →
  (∀ r itemUri, preserves P (playMp3Audio_end r itemUri)) →
  (∀ r, preserves P (stopMp3Audio r)) →
  (∀ answer, preserves P (pickMp3File answer)) →
  (∀ r itemUri fileName, preserves P (removeMp3Audio r itemUri fileName)) →
  (∀ captured status, preserves P (onMp3PlaybackStatusUpdate captured status)) →
  (∀ w, P (st (boot w))) →
  P (st y) → P (st (exec e y)).
Proof.
  intros Hsave Hload Hpause Hbegin Hend Hstop Hpick Hremove Hstatus Hboot Hy.
  assert (Hturn : ∀ m : M unit, preserves P m → P (snd (turn m (st y)))).
  { intros m Hm. by apply preserves_turn. }
  destruct e; cbn [exec].
  - destruct (pending_load y); [|done]. cbn [st]. by apply Hturn.
  - destruct (bool_decide _); [|done].
    destruct (row_is_playing _ _); [cbn [st]; by apply Hturn|].
    specialize (Hturn (playMp3Audio_begin (snd (st y)) (uri item))
                  (Hbegin _ _)).
    by destruct (turn _ (st y)) as [[[]|] s1].
  - destruct (pending_plays y !! i) as [[r' itemUri]|]; [|done].
    cbn [st]. by apply Hturn.
  - destruct (currentMp3Sound _); [|done]. cbn [st]. by apply Hturn.
  - cbn [st]. by apply Hturn.
  - destruct (bool_decide _); [|done]. cbn [st]. by apply Hturn.
  - destruct (handle_of _ _); [|done]. cbn [st]. apply Hturn.
    unfold deliver. apply Hstatus.
  - apply Hboot.
Qed.
End Preserves.

(** Proves [preserves P m] along the structure of [m]; [side] proves, for
    each update of the state, that it keeps [P]. *)
Ltac preserves_step side :=
  match goal with
  | |- preserves _ (match ?x with _ => _ end) => destruct x
  | |- preserves _ (if ?b then _ else _) => destruct b
  | |- preserves _ (modify_world _) =>
      apply preserves_modify_world; intros ? ? ?; side
  | |- preserves _ (modify_comp _) =>
      apply preserves_modify_comp; intros ? ? ?; side
  | |- preserves _ (call _) =>
      apply preserves_call; intros ? ? ?; side
  | |- preserves _ (_ ≫= _) => apply preserves_bind
  | |- preserves _ (try_catch _ _) => apply preserves_try_catch
  | |- preserves _ (try_finally _ _) => apply preserves_try_finally
  | |- preserves _ (not_awaited _) => apply preserves_not_awaited
  | |- preserves _ (attempt _) => apply preserves_attempt
  | |- preserves _ (press _) => apply preserves_press
  | |- preserves _ (mret _) => apply preserves_ret
  | |- preserves _ (ret _) => apply preserves_ret
  | |- preserves _ throw => apply preserves_throw
  | |- preserves _ (await _) => apply preserves_await
  | |- preserves _ get_world => apply preserves_get_world
  | |- preserves _ get_comp => apply preserves_get_comp
  | |- preserves _ (validate _ _) => apply preserves_validate
  | |- preserves _ (getInfoAsync _) => unfold getInfoAsync
  | |- preserves _ _ => fail 1
  | |- ∀ _, _ => intro; cbv beta
  end.

Ltac solve_preserves side :=
  unfold mount_effects, removeMp3Audio, playMp3Audio, deliver;
  unfold playMp3Audio_begin, playMp3Audio_end, pauseMp3Audio,
    stopMp3Audio, onMp3PlaybackStatusUpdate,
    removeMp3Audio_try, closeMp3ErrorModal,
    pickMp3File, pickMp3File_try, add_to_playlist, loadMp3Playlist_end,
    loadMp3Playlist_begin, saveEffect, saveMp3Playlist,
    setPlaylist, setCurrentMp3Sound, setIsMp3Playing,
    setMp3PlaybackStatus, setMp3Loading, showMp3CustomAlert,
    getItem, setItem, getInfoAsync, makeDirectoryAsync, copyAsync,
    deleteAsync, getDocumentAsync, unloadAsync, stopAsync, pauseAsync,
    createAsync_begin, createAsync_end, report, setMp3PlaybackStatus;
  solve [repeat preserves_step side].

Ltac modal_side := unfold modal_consistent in *; simpl in *; done.

(** ** The alert modal *)

Lemma boot_modal_consistent (w : World) : modal_consistent (st (boot w)).
Proof.
  unfold boot, mount. cbn [st].
  apply (preserves_turn modal_consistent);
    [solve_preserves modal_side|solve_preserves modal_side|].
  reflexivity.
Qed.

(** X4. The alert modal is on screen exactly when a message is set: this
    holds when the component is mounted and after every sequence of player
    events and taps on the modal's button, whatever the platform rejects
    (every alert sets both cells, closing clears both, nothing else touches
    them). *)
Theorem modal_shows_exactly_the_alerts (w : World) (gestures : list Gesture) :
  modal_consistent (st (perform gestures (boot w))).
Proof.
  unfold perform.
  assert (Hact : ∀ g y, modal_consistent (st y) → modal_consistent (st (act g y))).
  { intros [e|] y Hy; cbn [act].
    - apply exec_preserves;
        [solve_preserves modal_side..|apply boot_modal_consistent|done].
    - cbn [st]. apply (preserves_turn modal_consistent);
        [solve_preserves modal_side|solve_preserves modal_side|done]. }
  generalize (boot_modal_consistent w). generalize (boot w).
  induction gestures as [|g gestures IH]; intros y Hy; [done|].
  cbn [foldl]. apply IH. by apply Hact.
Qed.

(** ** Listed tracks have their files *)

Ltac files_side := unfold files_present in *; simpl in *; done.

Lemma keeps_files_present {A} (m : M A) :
  keeps beside_session m → preserves files_present m.
Proof.
  intros Hkeep s Hs. specialize (Hkeep s).
  injection Hkeep as Hfiles _ _ _ Hplaylist _ _.
  unfold files_present. by rewrite Hfiles, Hplaylist.
Qed.

Lemma pickMp3File_files_present (answer : DocumentResult) :
  preserves files_present (pickMp3File answer).
Proof.
  intros [w c]. unfold files_present. cbn [fst snd]. intros Hpresent.
  unfold pickMp3File, pickMp3File_try, add_to_playlist. crank.
  repeat (case_match; simplify_eq/=; try done);
    rewrite ?Forall_app, ?Forall_singleton; simpl;
    repeat split;
    try (eapply Forall_impl; [exact Hpresent|]; intros item Hitem; simpl);
    rewrite ?lookup_insert_is_Some'; auto.
Qed.

Lemma removeMp3Audio_files_present (r : Comp) (itemUri fileName : string) :
  preserves files_present (removeMp3Audio r itemUri fileName).
Proof.
  intros s Hs. rewrite removeMp3Audio_unfold. cbv zeta.
  set (stops := match currentMp3Sound r with
                | Some x => bool_decide (_uri x = Some itemUri)
                | None => false
                end).
  set (s1 := if stops then snd (stopMp3Audio r s) else s).
  assert (Hs1 : files_present s1).
  { subst s1. destruct stops; [|done].
    by apply keeps_files_present; [apply stopMp3Audio_frame|]. }
  destruct (removeMp3Audio_try_spec itemUri fileName s1)
    as (_ & _ & _ & _ & _ & Hresult).
  unfold files_present in *.
  destruct (faults (fst s1) (Delete itemUri));
    destruct Hresult as (-> & _ & -> & _); [done|].
  apply Forall_forall. intros item [Hne Hin]%list_elem_of_filter.
  rewrite lookup_delete_ne by done.
  by eapply Forall_forall in Hs1.
Qed.

(** The loop keeps only items whose file it has just seen. *)
Lemma validate_files_present (parsed valid res : list Track) (s s' : St) :
  Forall (fun item => is_Some (files (fst s) !! uri item)) valid →
  validate parsed valid s = (Ok res, s') →
  Forall (fun item => is_Some (files (fst s) !! uri item)) res ∧
  files (fst s') = files (fst s).
Proof.
  revert valid s. induction parsed as [|item rest IH]; intros valid [w c] Hvalid.
  - by intros [= <- <-].
  - cbn [validate]. unfold getInfoAsync. crank.
    destruct (faults w (GetInfo (uri item))); [done|]. cbn [fst snd].
    intros Hrest. apply IH in Hrest; [done|]. cbn [fst files record_call with_log].
    destruct (bool_decide (is_Some (files w !! uri item))) eqn:Hexists; [|done].
    apply bool_decide_eq_true in Hexists.
    apply Forall_app. split; [done|]. by apply Forall_singleton.
Qed.

Lemma loadMp3Playlist_end_files_present (p : Result (option Stored)) :
  preserves files_present (loadMp3Playlist_end p).
Proof.
  intros [w c] Hs. unfold loadMp3Playlist_end.
  destruct p as [[[l| |]|]|]; crank; try done.
  assert (Hkeep : keeps (fun s => (files (fst s), playlist (snd s)))
                    (validate l [])).
  { apply keeps_validate. intros path. solve_keeps. }
  specialize (Hkeep (w, c)).
  destruct (validate l [] (w, c)) as [[res|] [w1 c1]] eqn:Hvalidate;
    cbn [fst snd] in *.
  - apply validate_files_present in Hvalidate as [Hres Hfiles]; [|done].
    unfold files_present. cbn [fst snd] in *. simpl. by rewrite Hfiles.
  - injection Hkeep as Hfiles Hplaylist.
    unfold files_present in *. simpl in *. by rewrite Hfiles, Hplaylist.
Qed.

Lemma run_files_present (events : list Event) (y : Sys) :
  files_present (st y) → files_present (st (run events y)).
Proof.
  revert y. induction events as [|e events IH]; intros y Hy; [done|].
  cbn [run foldl]. apply IH.
  apply exec_preserves; try done.
  - solve_preserves files_side.
  - apply loadMp3Playlist_end_files_present.
  - solve_preserves files_side.
  - intros r itemUri. apply keeps_files_present.
    unfold beside_session. solve_keeps.
  - intros r itemUri. apply keeps_files_present.
    unfold beside_session. solve_keeps.
  - solve_preserves files_side.
  - apply pickMp3File_files_present.
  - apply removeMp3Audio_files_present.
  - intros captured status. apply keeps_files_present.
    unfold beside_session. solve_keeps.
  - intros w. unfold boot, mount. cbn [st].
    apply (preserves_turn files_present);
      [solve_preserves files_side|solve_preserves files_side|].
    apply Forall_nil_2.
Qed.

Lemma listed_files_present_after (w : World) (events : list Event) :
  files_present (st (run events (boot w))).
Proof.
  apply run_files_present. unfold boot, mount. cbn [st].
  apply (preserves_turn files_present);
    [solve_preserves files_side|solve_preserves files_side|].
  apply Forall_nil_2.
Qed.


(** ** The store mirrors the playlist *)

Lemma pickMp3File_ref (answer : DocumentResult) (s : St) :
  let s' := snd (pickMp3File answer s) in
  (playlist (snd s') = playlist (snd s) ∧
   playlist_ref (snd s') = playlist_ref (snd s)) ∨
  playlist_ref (snd s') ≠ playlist_ref (snd s).
Proof.
  destruct s as [w c]. cbv zeta.
  unfold pickMp3File, pickMp3File_try, add_to_playlist. crank.
  repeat (case_match; simplify_eq/=; auto); right; lia.
Qed.

Lemma removeMp3Audio_ref (r : Comp) (itemUri fileName : string) (s : St) :
  let s' := snd (removeMp3Audio r itemUri fileName s) in
  (playlist (snd s') = playlist (snd s) ∧
   playlist_ref (snd s') = playlist_ref (snd s)) ∨
  playlist_ref (snd s') ≠ playlist_ref (snd s).
Proof.
  cbv zeta. rewrite removeMp3Audio_unfold. cbv zeta.
  set (stops := match currentMp3Sound r with
                | Some x => bool_decide (_uri x = Some itemUri)
                | None => false
                end).
  set (s1 := if stops then snd (stopMp3Audio r s) else s).
  assert (Hs1 : beside_session s1 = beside_session s).
  { subst s1. destruct stops; [apply stopMp3Audio_frame|done]. }
  injection Hs1 as _ _ _ _ Hplaylist Href _.
  destruct (removeMp3Audio_try_spec itemUri fileName s1)
    as (_ & _ & _ & _ & _ & Hresult).
  destruct (faults (fst s1) (Delete itemUri));
    destruct Hresult as (Hp & Hr & _).
  - left. by rewrite Hp, Hr, Hplaylist, Href.
  - right. rewrite Hr, Href. lia.
Qed.

(** One turn of a handler that leaves the loading flag and the store alone
    and changes the playlist only by installing a new array: the platform
    stays reliable, the flag stays, and a store that mirrored the playlist
    mirrors it again. *)
Lemma turn_mirrors {A} (m : M A) (s : St) :
  reliable (fst s) →
  keeps (fun s => (faults (fst s), mp3Loading (snd s), storage (fst s))) m →
  ((playlist (snd (snd (m s))) = playlist (snd s) ∧
    playlist_ref (snd (snd (m s))) = playlist_ref (snd s)) ∨
   playlist_ref (snd (snd (m s))) ≠ playlist_ref (snd s)) →
  let s2 := snd (turn m s) in
  reliable (fst s2) ∧
  mp3Loading (snd s2) = mp3Loading (snd s) ∧
  (mp3Loading (snd s) = false →
   storage (fst s) = Some (StoredJson (playlist (snd s))) →
   storage (fst s2) = Some (StoredJson (playlist (snd s2)))).
Proof.
  intros Hok Hkeep Href. cbv zeta.
  specialize (Hkeep s). injection Hkeep as Hfaults Hloading Hstorage.
  pose proof (rerender_frame (snd s) (snd (m s))) as Hframe.
  injection Hframe as _ Hfaults2 _ _ Hplaylist2 _ _ _ _ Hloading2.
  unfold turn. cbn [fst snd].
  split; [intros x; by rewrite Hfaults2, Hfaults|].
  split; [by rewrite Hloading2|].
  intros Hdown Hmirror.
  destruct Href as [[Hsame Hrefsame]|Hnew].
  - unfold rerender, deps_changed.
    rewrite Hrefsame, Hloading, Nat.eqb_refl, eqb_reflx. cbn [negb orb snd fst].
    by rewrite Hstorage, Hsame.
  - destruct (mutation_is_persisted m s) as [Hsaved Hcomp]; try done.
    { by rewrite Hloading. }
    { rewrite Hfaults. apply Hok. }
    unfold turn in Hsaved, Hcomp. cbn [fst snd] in Hsaved, Hcomp.
    by rewrite Hsaved, Hcomp.
Qed.

Lemma loadMp3Playlist_end_lowers_flag (p : Result (option Stored)) (s : St) :
  mp3Loading (snd (snd (loadMp3Playlist_end p s))) = false.
Proof.
  unfold loadMp3Playlist_end, try_finally.
  destruct (try_catch _ _ s) as [res [w1 c1]]. by crank.
Qed.

Lemma boot_store_mirrors (w : World) :
  reliable w → reliable (fst (st (boot w))) ∧ store_mirrors (boot w).
Proof.
  intros Hok. unfold store_mirrors, boot. cbn [st pending_load].
  rewrite (mount_spec w Hok). cbn [fst snd]. split; [|done].
  intros x. apply Hok.
Qed.

Lemma exec_store_mirrors (e : Event) (y : Sys) :
  reliable (fst (st y)) → store_mirrors y →
  reliable (fst (st (exec e y))) ∧ store_mirrors (exec e y).
Proof.
  intros Hok Hmirror.
  assert (Hturn : ∀ m : M unit,
    keeps (fun s => (faults (fst s), mp3Loading (snd s), storage (fst s))) m →
    ((playlist (snd (snd (m (st y)))) = playlist (snd (st y)) ∧
      playlist_ref (snd (snd (m (st y)))) = playlist_ref (snd (st y))) ∨
     playlist_ref (snd (snd (m (st y)))) ≠ playlist_ref (snd (st y))) →
    reliable (fst (snd (turn m (st y)))) ∧
    store_mirrors {| st := snd (turn m (st y));
                     pending_load := pending_load y;
                     pending_plays := pending_plays y |}).
  { intros m Hkeep Href.
    destruct (turn_mirrors m (st y) Hok Hkeep Href) as (Hok2 & Hflag & Hstore).
    split; [done|]. unfold store_mirrors in *. cbn [st pending_load].
    destruct (pending_load y); [by rewrite Hflag|].
    destruct Hmirror as [Hdown Hstored]. split; [by rewrite Hflag|auto]. }
  assert (Hquiet : ∀ m : M unit, keeps beside_session m →
    reliable (fst (snd (turn m (st y)))) ∧
    store_mirrors {| st := snd (turn m (st y));
                     pending_load := pending_load y;
                     pending_plays := pending_plays y |}).
  { intros m Hkeep. apply Hturn.
    - intros s. specialize (Hkeep s).
      by injection Hkeep as _ -> -> _ _ _ ->.
    - left. specialize (Hkeep (st y)).
      by injection Hkeep as _ _ _ _ -> -> _. }
  destruct e; cbn [exec].
  - (* LoadSettles *)
    destruct (pending_load y) as [p|] eqn:Hp; [|by split].
    clear Hturn Hquiet. unfold store_mirrors in *. rewrite Hp in Hmirror. cbn [st pending_load].
    assert (Hkeep : keeps (fun s => faults (fst s)) (loadMp3Playlist_end p)).
    { unfold loadMp3Playlist_end.
      apply keeps_try_finally; [|solve_keeps].
      apply keeps_try_catch; [|solve_keeps].
      apply keeps_bind; [solve_keeps|]. intros [[l| |]|]; [|solve_keeps..].
      apply keeps_bind; [|solve_keeps].
      apply keeps_validate. intros path. solve_keeps. }
    specialize (Hkeep (st y)).
    pose proof (loadMp3Playlist_end_lowers_flag p (st y)) as Hdown.
    pose proof (rerender_frame (snd (st y))
                  (snd (loadMp3Playlist_end p (st y)))) as Hframe.
    injection Hframe as _ Hfaults2 _ _ Hplaylist2 _ _ _ _ Hloading2.
    unfold turn. cbn [fst snd].
    split; [intros x; by rewrite Hfaults2, Hkeep|].
    split; [by rewrite Hloading2|].
    rewrite Hplaylist2.
    destruct (loadMp3Playlist_end p (st y)) as [res [w1 c1]].
    cbn [fst snd] in *.
    unfold rerender, deps_changed, saveEffect, saveMp3Playlist. cbn [fst snd].
    rewrite Hmirror, Hdown, orb_true_r. crank. simpl.
    rewrite Hkeep, Hok. done.
  - (* TapPlayPause *)
    destruct (bool_decide _); [|done].
    destruct (row_is_playing _ _).
    + apply Hquiet. unfold beside_session. solve_keeps.
    + destruct (Hquiet (playMp3Audio_begin (snd (st y)) (uri item)))
        as [Hok2 Hmirror2].
      { unfold beside_session. solve_keeps. }
      unfold store_mirrors in *. cbn [st pending_load] in *.
      by destruct (turn _ (st y)) as [[[]|] s1].
  - (* PlaySettles *)
    destruct (pending_plays y !! i) as [[r' itemUri]|]; [|done].
    apply Hquiet. unfold beside_session. solve_keeps.
  - (* TapStop *)
    destruct (currentMp3Sound _); [|done].
    apply Hquiet. apply stopMp3Audio_frame.
  - (* TapAdd *)
    apply (Hturn (pickMp3File answer)); [solve_keeps|apply pickMp3File_ref].
  - (* TapRemove *)
    destruct (bool_decide _); [|done].
    apply (Hturn (removeMp3Audio (snd (st y)) (uri item) (name item)));
      [unfold removeMp3Audio; solve_keeps|apply removeMp3Audio_ref].
  - (* StatusUpdate *)
    destruct (handle_of _ _); [|done].
    apply Hquiet. unfold beside_session. solve_keeps.
  - (* Relaunch *)
    apply boot_store_mirrors. intros x. apply Hok.
Qed.

Lemma run_store_mirrors (events : list Event) (y : Sys) :
  reliable (fst (st y)) → store_mirrors y →
  reliable (fst (st (run events y))) ∧ store_mirrors (run events y).
Proof.
  revert y. induction events as [|e events IH]; intros y Hok Hmirror; [done|].
  cbn [run foldl].
  destruct (exec_store_mirrors e y Hok Hmirror) as [Hok' Hmirror'].
  by apply IH.
Qed.

(** X6. Once the load started at mount is over, and on a platform that
    rejects no call, the store holds exactly the playlist on screen after
    every turn: every add and remove that changes the playlist is followed
    by a rewrite, and nothing else writes. *)
Theorem store_mirrors_playlist (w : World) (events : list Event) :
  reliable w →
  let y := run events (boot w) in
  pending_load y = None →
  mp3Loading (snd (st y)) = false ∧
  storage (fst (st y)) = Some (StoredJson (playlist (snd (st y)))).
Proof.
  intros Hok. cbv zeta. intros Hloaded.
  destruct (boot_store_mirrors w Hok) as [Hok0 Hmirror0].
  destruct (run_store_mirrors events (boot w) Hok0 Hmirror0) as [_ Hmirror].
  unfold store_mirrors in Hmirror. by rewrite Hloaded in Hmirror.
Qed.

Lemma store_mirrors_playlist_witness :
  let y := run [LoadSettles;
                TapAdd (picks "c.mp3" "file:///cache/a.mp3");
                TapRemove track_a] (boot sample_device) in
  playlist (snd (st y))
    = [track_b; {| name := "c.mp3"; uri := "file:///doc/audio/c.mp3" |}] ∧
  mp3Loading (snd (st y)) = false ∧
  storage (fst (st y)) = Some (StoredJson (playlist (snd (st y)))).
Proof.
  cbv zeta. split; [vm_compute; reflexivity|].
  apply (store_mirrors_playlist sample_device
           [LoadSettles; TapAdd (picks "c.mp3" "file:///cache/a.mp3");
            TapRemove track_a]).
  - intros x. reflexivity.
  - vm_compute. reflexivity.
Defined.

(** X7. The playlist survives a relaunch.  On a platform that rejects no
    call, and with nothing but the app touching its files, closing the app
    once its load is over and opening it again leads, when the new load is
    over, to the same playlist in the same order, stored again, with an
    idle session. *)
Theorem playlist_survives_relaunch (w : World) (events : list Event) :
  reliable w →
  let y := run events (boot w) in
  pending_load y = None →
  let y' := run [Relaunch; LoadSettles] y in
  playlist (snd (st y')) = playlist (snd (st y)) ∧
  session (snd (st y')) = (None, false, None) ∧
  storage (fst (st y')) = Some (StoredJson (playlist (snd (st y)))) ∧
  files (fst (st y')) = files (fst (st y)).
Proof.
  intros Hok. cbv zeta. intros Hloaded.
  destruct (boot_store_mirrors w Hok) as [Hok0 Hmirror0].
  destruct (run_store_mirrors events (boot w) Hok0 Hmirror0) as [Hoky Hmirror].
  unfold store_mirrors in Hmirror. rewrite Hloaded in Hmirror.
  destruct Hmirror as [_ Hstored].
  pose proof (listed_files_present_after w events) as Hpresent.
  set (y := run events (boot w)) in *.
  change (run [Relaunch; LoadSettles] y)
    with (run [LoadSettles] (boot (with_live [] (fst (st y))))).
  rewrite startup_is_boot_then_load.
  destruct (startup_spec (playlist (snd (st y))) (with_live [] (fst (st y))))
    as (Hcomp & Hstorage & Hfiles & _); [done|done|].
  cbn [files with_live] in *.
  rewrite (filter_all _ _ Hpresent) in Hcomp, Hstorage.
  by rewrite Hcomp, Hstorage, Hfiles.
Qed.

Lemma playlist_survives_relaunch_witness :
  let y := run [LoadSettles;
                TapAdd (picks "c.mp3" "file:///cache/a.mp3");
                TapPlayPause track_b; PlaySettles 0] (boot sample_device) in
  let y' := run [Relaunch; LoadSettles] y in
  playlist (snd (st y))
    = [track_a; track_b;
       {| name := "c.mp3"; uri := "file:///doc/audio/c.mp3" |}] ∧
  playlist (snd (st y')) = playlist (snd (st y)) ∧
  session (snd (st y')) = (None, false, None) ∧
  storage (fst (st y')) = Some (StoredJson (playlist (snd (st y)))) ∧
  files (fst (st y')) = files (fst (st y)).
Proof.
  cbv zeta. split; [vm_compute; reflexivity|].
  apply (playlist_survives_relaunch sample_device
           [LoadSettles; TapAdd (picks "c.mp3" "file:///cache/a.mp3");
            TapPlayPause track_b; PlaySettles 0]).
  - intros x. reflexivity.
  - vm_compute. reflexivity.
Defined.

(** ** The row button *)

(** X8. The row button never pauses and never resumes.  Its test reads
    [currentMp3Sound._uri], which no sound has, so whenever a sound is
    held, playing or not, a tap on any listed row (the row of the track
    that is playing too) calls [playMp3Audio]: the held sound is unloaded
    and a fresh load of the tapped track is requested, which will start
    from the beginning. *)
Theorem row_tap_always_restarts (y : Sys) (item : Track) (x : Sound) :
  item ∈ playlist (snd (st y)) →
  currentMp3Sound (snd (st y)) = Some x →
  faults (fst (st y)) (Unload (key x)) = false →
  let y' := exec (TapPlayPause item) y in
  log (fst (st y'))
    = log (fst (st y)) ++ [Unload (key x); CreateSound (uri item)] ∧
  currentMp3Sound (snd (st y')) = None ∧
  isLoaded x (fst (st y')) = false ∧
  pending_plays y' = pending_plays y ++ [(snd (st y), uri item)].
Proof.
  intros Hitem Hcur Hunload. cbv zeta. cbn [exec].
  rewrite bool_decide_eq_true_2 by done.
  assert (row_is_playing (snd (st y)) item = false) as ->.
  { unfold row_is_playing. rewrite Hcur. apply andb_false_r. }
  destruct y as [[w c] pl pp]. cbn [st fst snd pending_plays] in *.
  unfold playMp3Audio_begin, turn, rerender, deps_changed. rewrite Hcur.
  crank. rewrite Hunload. simpl.
  rewrite Nat.eqb_refl, eqb_reflx. simpl.
  split; [by rewrite <- app_assoc|].
  split; [done|]. split; [|done].
  unfold isLoaded. simpl. apply bool_decide_eq_false.
  rewrite Exists_exists. intros (h & Hin & Hkey).
  apply list_elem_of_filter in Hin. by destruct Hin.
Qed.

Lemma row_tap_always_restarts_witness :
  let y := run [TapPlayPause track_a; PlaySettles 0] sample_ready in
  let x := {| key := 0; loaded_from := uri track_a |} in
  let y' := exec (TapPlayPause track_a) y in
  (currentMp3Sound (snd (st y)) = Some x ∧
   isMp3Playing (snd (st y)) = true) ∧
  log (fst (st y'))
    = log (fst (st y)) ++ [Unload (key x); CreateSound (uri track_a)] ∧
  currentMp3Sound (snd (st y')) = None ∧
  isLoaded x (fst (st y')) = false ∧
  pending_plays y' = pending_plays y ++ [(snd (st y), uri track_a)].
Proof.
  cbv zeta. split; [vm_compute; by repeat split|].
  apply (row_tap_always_restarts
           (run [TapPlayPause track_a; PlaySettles 0] sample_ready)
           track_a {| key := 0; loaded_from := uri track_a |}).
  - vm_compute. apply list_elem_of_here.
  - vm_compute. reflexivity.
  - vm_compute. reflexivity.
Defined.

(** ** The time display *)

Lemma string_length_app (s1 s2 : string) :
  String.length (s1 +:+ s2) = String.length s1 + String.length s2.
Proof.
  induction s1 as [|a s1 IH]; [done|].
  change (String a s1 +:+ s2) with (String a (s1 +:+ s2)).
  cbn [String.length]. by rewrite IH.
Qed.

Lemma string_app_assoc (s1 s2 s3 : string) :
  (s1 +:+ s2) +:+ s3 = s1 +:+ (s2 +:+ s3).
Proof.
  induction s1 as [|a s1 IH]; [done|].
  change ((String a s1 +:+ s2) +:+ s3) with (String a ((s1 +:+ s2) +:+ s3)).
  change (String a s1 +:+ (s2 +:+ s3)) with (String a (s1 +:+ (s2 +:+ s3))).
  by rewrite IH.
Qed.

(** Two concatenations with heads of the same length are equal only part
    by part. *)
Lemma string_app_inj_length (s1 s2 t1 t2 : string) :
  String.length s1 = String.length t1 →
  s1 +:+ s2 = t1 +:+ t2 → s1 = t1 ∧ s2 = t2.
Proof.
  revert t1. induction s1 as [|a s1 IH]; intros [|b t1] Hlen Heq;
    try discriminate Hlen; [done|].
  change (String a (s1 +:+ s2) = String b (t1 +:+ t2)) in Heq.
  injection Heq as -> Heq. injection Hlen as Hlen.
  destruct (IH t1 Hlen Heq) as [-> ->]. done.
Qed.

(** The numeral of a number with at least three digits. *)
Lemma pretty_N_go_length (x : N) (s : string) :
  String.length s ≤ String.length (pretty_N_go x s).
Proof.
  revert s. induction (N.lt_wf_0 x) as [x _ IH]; intros s.
  destruct (decide (0 < x)%N) as [Hpos|Hzero].
  - rewrite pretty_N_go_step by done.
    etrans; [|apply IH; by apply N.div_lt]. cbn [String.length]. lia.
  - assert (x = 0%N) as -> by lia. by rewrite pretty_N_go_0.
Qed.

Lemma pretty_length_three (n : nat) : 100 ≤ n → 3 ≤ String.length (pretty n).
Proof.
  intros Hn. unfold pretty, pretty_nat, pretty, pretty_N.
  set (x := N.of_nat n). assert (100 ≤ x)%N as Hx by lia.
  rewrite decide_False by lia.
  rewrite pretty_N_go_step by lia.
  rewrite pretty_N_go_step by (apply N.div_str_pos; lia).
  rewrite pretty_N_go_step.
  - etrans; [|apply pretty_N_go_length]. cbn [String.length]. lia.
  - apply N.div_str_pos. split; [lia|].
    apply N.div_le_lower_bound; lia.
Qed.

(** The zero-padded numeral, [`${n < 10 ? '0' : ''}${n}`]: two characters
    up to 99, and a different one for every number. *)
Lemma padded_length (n : nat) :
  n < 100 →
  String.length ((if n <? 10 then "0" else "") +:+ pretty n) = 2.
Proof.
  intros Hn.
  assert (Hall : Forall (fun n : nat =>
    String.length ((if n <? 10 then "0" else "") +:+ pretty n) = 2)
    (seq 0 100)).
  { apply (bool_decide_unpack _). vm_compute. exact I. }
  rewrite Forall_forall in Hall. apply Hall, elem_of_seq. lia.
Qed.

Lemma padded_inj (n m : nat) :
  (if n <? 10 then "0" else "") +:+ pretty n
  = (if m <? 10 then "0" else "") +:+ pretty m →
  n = m.
Proof.
  intros Heq.
  destruct (decide (n < 100)) as [Hn|Hn], (decide (m < 100)) as [Hm|Hm].
  - assert (Hall : Forall (fun n : nat => Forall (fun m : nat =>
      (if n <? 10 then "0" else "") +:+ pretty n
      = (if m <? 10 then "0" else "") +:+ pretty m → n = m) (seq 0 100))
      (seq 0 100)).
    { apply (bool_decide_unpack _). vm_compute. exact I. }
    rewrite Forall_forall in Hall.
    specialize (Hall n ltac:(apply elem_of_seq; lia)).
    rewrite Forall_forall in Hall.
    by apply (Hall m ltac:(apply elem_of_seq; lia)).
  - apply (f_equal String.length) in Heq.
    rewrite padded_length in Heq by done.
    assert ((m <? 10) = false) as Hbig by (apply Nat.ltb_ge; lia).
    rewrite Hbig in Heq. change ("" +:+ pretty m) with (pretty m) in Heq.
    pose proof (pretty_length_three m). lia.
  - apply (f_equal String.length) in Heq.
    rewrite (padded_length m) in Heq by done.
    assert ((n <? 10) = false) as Hbig by (apply Nat.ltb_ge; lia).
    rewrite Hbig in Heq. change ("" +:+ pretty n) with (pretty n) in Heq.
    pose proof (pretty_length_three n). lia.
  - assert ((n <? 10) = false) as Hn' by (apply Nat.ltb_ge; lia).
    assert ((m <? 10) = false) as Hm' by (apply Nat.ltb_ge; lia).
    rewrite Hn', Hm' in Heq. by apply (inj pretty).
Qed.

(** The formatter, as minutes, a colon and seconds of the whole seconds
    played; a missing time and a time below one second both print as
    zero. *)
Lemma formatPlaybackTime_unfold (milliseconds : option nat) :
  let totalSeconds := default 0 milliseconds / 1000 in
  formatPlaybackTime milliseconds
  = ((if totalSeconds / 60 <? 10 then "0" else "")
       +:+ pretty (totalSeconds / 60))
    +:+ (":" +:+ ((if totalSeconds mod 60 <? 10 then "0" else "")
                    +:+ pretty (totalSeconds mod 60))).
Proof.
  destruct milliseconds as [ms|]; [|by vm_compute].
  cbn [default]. unfold formatPlaybackTime.
  destruct (ms =? 0) eqn:Hzero.
  - apply Nat.eqb_eq in Hzero as ->. by vm_compute.
  - cbv zeta. rewrite <- !string_app_assoc. done.
Qed.

(** X9 (formatPlaybackTime).  Two times are displayed alike exactly when
    they lie in the same whole second; a missing time counts as zero.
    The display never merges two different seconds, however long the
    track. *)
Theorem time_display_tells_whole_seconds (a b : option nat) :
  formatPlaybackTime a = formatPlaybackTime b
  ↔ default 0 a / 1000 = default 0 b / 1000.
Proof.
  rewrite !formatPlaybackTime_unfold. cbv zeta.
  set (x := default 0 a / 1000). set (y := default 0 b / 1000).
  split; [|by intros ->].
  intros Heq.
  assert (Hx : x mod 60 < 100) by (pose proof (Nat.mod_upper_bound x 60); lia).
  assert (Hy : y mod 60 < 100) by (pose proof (Nat.mod_upper_bound y 60); lia).
  pose proof (padded_length _ Hx) as Hlx.
  pose proof (padded_length _ Hy) as Hly.
  pose proof (f_equal String.length Heq) as Hlen.
  rewrite !string_length_app in Hlen. rewrite !string_length_app in Hlx.
  rewrite !string_length_app in Hly.
  apply string_app_inj_length in Heq as [Hmin Hsec];
    [|rewrite !string_length_app; lia].
  apply padded_inj in Hmin.
  apply (string_app_inj_length ":" _ ":" _) in Hsec as [_ Hsec]; [|done].
  apply padded_inj in Hsec.
  rewrite (Nat.div_mod_eq x 60), (Nat.div_mod_eq y 60). lia.
Qed.

(** X10 (formatPlaybackTime).  The display is five characters, MM:SS,
    exactly for times below one hundred minutes of whole seconds;
    from there on it is wider, never narrower. *)
Theorem time_display_is_five_wide_below_100_minutes (milliseconds : option nat) :
  5 ≤ String.length (formatPlaybackTime milliseconds)
  ∧ (String.length (formatPlaybackTime milliseconds) = 5
     ↔ default 0 milliseconds / 1000 < 100 * 60).
Proof.
  rewrite formatPlaybackTime_unfold. cbv zeta.
  set (x := default 0 milliseconds / 1000).
  assert (Hx : x mod 60 < 100) by (pose proof (Nat.mod_upper_bound x 60); lia).
  pose proof (padded_length _ Hx) as Hs.
  rewrite !string_length_app in Hs. rewrite !string_length_app.
  change (String.length ":") with 1.
  fold x.
  assert (x < 100 * 60 ↔ x / 60 < 100) as ->.
  { split; intros H.
    - apply Nat.Div0.div_lt_upper_bound. lia.
    - destruct (decide (x < 100 * 60)); [done|].
      assert (100 ≤ x / 60); [|lia].
      apply Nat.div_le_lower_bound; lia. }
  destruct (decide (x / 60 < 100)) as [Hm|Hm].
  - pose proof (padded_length _ Hm) as Hl. rewrite !string_length_app in Hl.
    lia.
  - assert ((x / 60 <? 10) = false) as -> by (apply Nat.ltb_ge; lia).
    pose proof (pretty_length_three (x / 60)).
    change (String.length "") with 0. lia.
Qed.

(** * The Pomodoro timer *)

Section TimerFacts.
Import Pomodoro.

Ltac tsimpl :=
  cbn [sound alarmSound isLofiPlaying timerType timeLeft isRunning interval
       lofi_sounding rejects calls setIsLofiPlaying setTimerType setTimeLeft
       setIsRunning with_interval with_sound with_alarmSound audio
       reset_effect fst snd negb andb] in *.

Lemma initialValue_pos (p : TimerType) : (0 < initialValue p)%Z.
Proof. by destruct p. Qed.

(** *** The effects, case by case *)

(** What the zero branch leaves and what it sets. *)
Lemma zero_branch_spec (s : Timer) :
  zero_branch s =
  {| sound := sound s; alarmSound := alarmSound s;
     isLofiPlaying := if sound s then false else isLofiPlaying s;
     timerType := timerType s; timeLeft := timeLeft s; isRunning := false;
     interval := interval s;
     lofi_sounding :=
       if sound s && negb (rejects s LofiPause) then false
       else lofi_sounding s;
     rejects := rejects s;
     calls := calls s ++ ring s |}.
Proof.
  destruct s as [lofi alm flag ty t rn itv dev rej cs].
  unfold zero_branch, ring. tsimpl.
  destruct alm, lofi; tsimpl; cbn [app];
    rewrite <- ?app_assoc, ?app_nil_r; cbn [app];
    by destruct (rej AlarmReplay), (rej LofiPause).
Qed.

Lemma commit_quiet (prev s : Timer) :
  timerType prev = timerType s → isRunning prev = isRunning s →
  timeLeft prev = timeLeft s → commit prev s = s.
Proof.
  intros Htype Hrun Htime. unfold commit.
  by rewrite !bool_decide_eq_true_2.
Qed.

Lemma commit_countdown (prev s : Timer) :
  timerType prev = timerType s →
  isRunning prev ≠ isRunning s ∨ timeLeft prev ≠ timeLeft s →
  commit prev s = countdown_effect s s.
Proof.
  intros Htype Hdeps. unfold commit.
  rewrite (bool_decide_eq_true_2 _ Htype).
  destruct Hdeps as [H|H]; rewrite (bool_decide_eq_false_2 _ H);
    by rewrite ?andb_false_r.
Qed.

Lemma commit_reset (prev s : Timer) :
  timerType prev ≠ timerType s → isRunning prev = isRunning s →
  timeLeft prev = timeLeft s → commit prev s = reset_effect s s.
Proof.
  intros Htype Hrun Htime. unfold commit.
  rewrite (bool_decide_eq_false_2 _ Htype).
  by rewrite !bool_decide_eq_true_2.
Qed.

Lemma countdown_armed (r s : Timer) :
  isRunning r = true → (0 < timeLeft r)%Z →
  countdown_effect r s = with_interval true s.
Proof.
  intros Hrun Htime. unfold countdown_effect. rewrite Hrun.
  by rewrite (proj2 (Z.ltb_lt _ _) Htime).
Qed.

Lemma countdown_zero (r s : Timer) :
  timeLeft r = 0%Z → countdown_effect r s = zero_branch (with_interval false s).
Proof.
  intros Htime. unfold countdown_effect. rewrite Htime.
  by rewrite andb_false_r.
Qed.

Lemma countdown_idle (r s : Timer) :
  isRunning r && (0 <? timeLeft r)%Z = false → timeLeft r ≠ 0%Z →
  countdown_effect r s = with_interval false s.
Proof.
  intros Hrun Htime. unfold countdown_effect. rewrite Hrun.
  by rewrite (proj2 (Z.eqb_neq _ _) Htime).
Qed.

Lemma countdown_effect_frame (r s : Timer) :
  timerType (countdown_effect r s) = timerType s
  ∧ timeLeft (countdown_effect r s) = timeLeft s.
Proof.
  unfold countdown_effect.
  destruct (isRunning r && (0 <? timeLeft r)%Z); [done|].
  destruct (timeLeft r =? 0)%Z; [|done].
  fold (zero_branch (with_interval false s)).
  by rewrite zero_branch_spec.
Qed.

Lemma commit_timerType (prev s : Timer) :
  timerType (commit prev s) = timerType s.
Proof.
  unfold commit. repeat case_match;
    rewrite ?(proj1 (countdown_effect_frame _ _)); done.
Qed.

Lemma same_cells_true (a b : Timer) :
  isLofiPlaying a = isLofiPlaying b → timerType a = timerType b →
  timeLeft a = timeLeft b → isRunning a = isRunning b →
  same_cells a b = true.
Proof. intros. unfold same_cells. by rewrite !bool_decide_eq_true_2. Qed.

Lemma same_cells_false (a b : Timer) :
  timeLeft a ≠ timeLeft b ∨ isRunning a ≠ isRunning b →
  same_cells a b = false.
Proof.
  intros [H|H]; unfold same_cells; rewrite (bool_decide_eq_false_2 _ H);
    by rewrite ?andb_false_r.
Qed.

Lemma rerender_eq (prev s : Timer) :
  rerender prev s =
  if same_cells s (commit prev s) then commit prev s
  else commit s (commit prev s).
Proof.
  unfold rerender, settle. cbv zeta. by repeat case_match.
Qed.

(** The countdown effect and the render it may cause, in closed form. *)
Lemma countdown_settles (s : Timer) :
  (if same_cells s (countdown_effect s s) then countdown_effect s s
   else commit s (countdown_effect s s)) = after_countdown s.
Proof.
  unfold after_countdown.
  destruct (isRunning s && (0 <? timeLeft s)%Z) eqn:Harmed.
  { apply andb_true_iff in Harmed as [Hrun Htime%Z.ltb_lt].
    rewrite countdown_armed by done. by rewrite same_cells_true. }
  destruct (Z.eqb_spec (timeLeft s) 0) as [Hzero|Hzero].
  - rewrite countdown_zero by done.
    set (z := zero_branch (with_interval false s)).
    assert (timerType s = timerType z ∧ timeLeft s = timeLeft z
            ∧ isRunning z = false) as (Htype & Htime & Hrun).
    { unfold z. by rewrite zero_branch_spec. }
    destruct (isRunning s) eqn:Hs.
    + rewrite same_cells_false by (right; congruence).
      rewrite commit_countdown by (done || left; congruence).
      apply countdown_zero. congruence.
    + assert (commit s z = z) as ->; [|by case_match].
      apply commit_quiet; congruence.
  - rewrite countdown_idle by done. by rewrite same_cells_true.
Qed.

(** A render after an update that left the mode alone. *)
Lemma rerender_same_type (prev s : Timer) :
  timerType prev = timerType s →
  rerender prev s =
  if bool_decide (isRunning prev = isRunning s)
     && bool_decide (timeLeft prev = timeLeft s) then s
  else after_countdown s.
Proof.
  intros Htype. rewrite rerender_eq.
  destruct (decide (isRunning prev = isRunning s)) as [Hrun|Hrun];
    [destruct (decide (timeLeft prev = timeLeft s)) as [Htime|Htime]|].
  - rewrite commit_quiet by done.
    rewrite !bool_decide_eq_true_2 by done.
    by rewrite same_cells_true.
  - rewrite (bool_decide_eq_false_2 _ Htime), andb_false_r.
    rewrite commit_countdown by auto. apply countdown_settles.
  - rewrite (bool_decide_eq_false_2 _ Hrun). cbn [andb].
    rewrite commit_countdown by auto. apply countdown_settles.
Qed.

(** A render after the mode was changed: the reset effect, and the
    countdown effect clearing the interval if the reset set a cell. *)
Lemma rerender_new_type (prev s : Timer) :
  timerType prev ≠ timerType s → isRunning prev = isRunning s →
  timeLeft prev = timeLeft s →
  rerender prev s =
  if same_cells s (reset_effect s s) then reset_effect s s
  else with_interval false (reset_effect s s).
Proof.
  intros Htype Hrun Htime. rewrite rerender_eq, commit_reset by done.
  destruct (same_cells s (reset_effect s s)) eqn:Hsame; [done|].
  pose proof (initialValue_pos (timerType s)).
  rewrite commit_countdown.
  - apply countdown_idle; tsimpl; [done|lia].
  - done.
  - unfold same_cells in Hsame. tsimpl.
    rewrite !bool_decide_eq_true_2 in Hsame by done. cbn [andb] in Hsame.
    destruct (decide (timeLeft s = initialValue (timerType s))) as [Heq|];
      [|by right].
    left. rewrite (bool_decide_eq_true_2 _ Heq) in Hsame. cbn [andb] in Hsame.
    by apply bool_decide_eq_false in Hsame.
Qed.

(** The effects of a render never set a cell that the effects of the
    render before have set differently. *)
Lemma commit_twice_stable (prev s : Timer) :
  same_cells (commit prev s) (commit s (commit prev s)) = true.
Proof.
  set (s1 := commit prev s).
  assert (Htype : timerType s = timerType s1)
    by (symmetry; apply commit_timerType).
  destruct (decide (isRunning s = isRunning s1 ∧ timeLeft s = timeLeft s1))
    as [[Hrun Htime]|Hdeps].
  { rewrite (commit_quiet s s1) by done. by apply same_cells_true. }
  rewrite (commit_countdown s s1);
    [|done|destruct (decide (isRunning s = isRunning s1)); [right|left]; naive_solver].
  destruct (isRunning s1 && (0 <? timeLeft s1)%Z) eqn:Harmed.
  { apply andb_true_iff in Harmed as [Hrun Htime%Z.ltb_lt].
    rewrite countdown_armed by done. by apply same_cells_true. }
  destruct (decide (timeLeft s1 = 0%Z)) as [Hzero|Hzero];
    [|rewrite countdown_idle by done; by apply same_cells_true].
  rewrite countdown_zero by done.
  (* the first pass has itself taken the zero branch *)
  assert (Hfirst : s1 = zero_branch (with_interval false s)).
  { pose proof (initialValue_pos (timerType s)).
    unfold s1, commit in *. clear s1.
    destruct (bool_decide (timerType prev = timerType s));
      destruct (bool_decide (isRunning prev = isRunning s)
                && bool_decide (timeLeft prev = timeLeft s));
      try (exfalso; apply Hdeps; done).
    - apply countdown_zero.
      by rewrite (proj2 (countdown_effect_frame _ _)) in Hzero.
    - tsimpl. lia.
    - rewrite (proj2 (countdown_effect_frame _ _)) in Hzero. tsimpl. lia. }
  rewrite Hfirst, !zero_branch_spec. apply same_cells_true; tsimpl; try done.
  by destruct (sound s).
Qed.

(** X11 (effects 2 and 3).  The effects of the timer settle: after a
    render whose effects set a cell, the effects of the next render set
    none, so two passes are all that ever happen and further passes change
    nothing.  The component cannot loop rendering. *)
Theorem effects_settle_in_two_passes (passes : nat) (prev s : Timer) :
  settle (2 + passes) prev s = settle 2 prev s.
Proof.
  change (2 + passes) with (S (S passes)). cbn [settle]. cbv zeta.
  destruct (same_cells s (commit prev s)); [done|].
  by rewrite commit_twice_stable.
Qed.

(** *** What the handlers and the effects leave alone *)

Ltac handler_cases :=
  repeat (tsimpl;
          match goal with
          | |- context [if ?b then _ else _] => destruct b eqn:?
          end);
  tsimpl.

Lemma togglePomodoroTimer_frame (s : Timer) :
  handler_frame s (togglePomodoroTimer s s).
Proof.
  destruct s as [lofi alm flag ty t rn itv dev rej cs].
  unfold handler_frame, togglePomodoroTimer. by handler_cases.
Qed.

Lemma toggleLofiSound_frame (s : Timer) :
  handler_frame s (toggleLofiSound s s)
  ∧ isRunning (toggleLofiSound s s) = isRunning s.
Proof.
  destruct s as [lofi alm flag ty t rn itv dev rej cs].
  unfold handler_frame, toggleLofiSound. by handler_cases.
Qed.

Lemma after_countdown_frame (s : Timer) :
  timerType (after_countdown s) = timerType s
  ∧ timeLeft (after_countdown s) = timeLeft s
  ∧ sound (after_countdown s) = sound s
  ∧ alarmSound (after_countdown s) = alarmSound s
  ∧ rejects (after_countdown s) = rejects s.
Proof.
  unfold after_countdown. repeat case_match; by rewrite ?zero_branch_spec.
Qed.

(** *** The invariant of the timer *)

Lemma after_countdown_inv (s : Timer) :
  (0 ≤ timeLeft s ≤ initialValue (timerType s))%Z →
  timer_inv (after_countdown s).
Proof.
  intros Hrange. unfold after_countdown, timer_inv.
  destruct (isRunning s) eqn:Hrun; cbn [andb];
    destruct (Z.ltb_spec 0 (timeLeft s));
    try destruct (Z.eqb_spec (timeLeft s) 0);
    rewrite ?zero_branch_spec; tsimpl; rewrite ?Hrun;
    repeat split; try done; try lia.
Qed.

Lemma rerender_inv (prev s : Timer) :
  timer_inv prev → timerType prev = timerType s →
  interval s = interval prev →
  (0 ≤ timeLeft s ≤ initialValue (timerType s))%Z →
  timer_inv (rerender prev s).
Proof.
  intros (Hrange & Hpos & Hitv) Htype Hsame Hrange'.
  rewrite rerender_same_type by done.
  destruct (bool_decide (isRunning prev = isRunning s)) eqn:Hrun; cbn [andb];
    [destruct (bool_decide (timeLeft prev = timeLeft s)) eqn:Htime|];
    try by apply after_countdown_inv.
  apply bool_decide_eq_true in Hrun, Htime.
  unfold timer_inv. rewrite <- Hrun, <- Htime, <- Htype, Hsame. done.
Qed.

Lemma setTimerType_same (s : Timer) : setTimerType (timerType s) s = s.
Proof. by destruct s. Qed.

Lemma exec_select_same (s : Timer) : exec (Select (timerType s)) s = s.
Proof.
  cbn [exec]. rewrite setTimerType_same, rerender_same_type by done.
  by rewrite !bool_decide_eq_true_2.
Qed.

(** Choosing another mode: what it comes to for a timer between events. *)
Lemma exec_select_other (p : TimerType) (s : Timer) :
  timer_inv s → p ≠ timerType s →
  exec (Select p) s =
  with_interval false (setIsRunning false (setTimeLeft (initialValue p)
    (setTimerType p s))).
Proof.
  intros (Hrange & Hpos & Hitv) Hp. cbn [exec].
  rewrite rerender_new_type by (tsimpl; done). tsimpl.
  destruct (same_cells _ _) eqn:Hsame; [|done].
  unfold same_cells in Hsame. tsimpl.
  apply andb_true_iff in Hsame as [_ Hrun%bool_decide_eq_true].
  destruct s as [lofi alm flag ty t rn itv dev rej cs]. tsimpl.
  by subst.
Qed.

Lemma exec_timer_inv (e : Event) (s : Timer) :
  timer_inv s → timer_inv (exec e s).
Proof.
  intros Hinv. pose proof Hinv as (Hrange & Hpos & Hitv).
  destruct e as [|p| | | |]; [| |cbn [exec]..].
  - cbn [exec]. destruct (interval s) eqn:Harmed; [|done].
    apply rerender_inv; tsimpl; try done.
    assert (0 < timeLeft s)%Z by (apply Hpos; congruence). lia.
  - destruct (decide (p = timerType s)) as [->|Hp].
    + by rewrite exec_select_same.
    + pose proof (initialValue_pos p).
      rewrite exec_select_other by done.
      unfold timer_inv. tsimpl. repeat split; try done; lia.
  - destruct (togglePomodoroTimer_frame s) as (Htype & Htime & Hitv' & _).
    apply rerender_inv; try done; congruence.
  - destruct (toggleLofiSound_frame s) as ((Htype & Htime & Hitv' & _) & _).
    apply rerender_inv; try done; congruence.
  - by destruct (sound s).
  - by destruct (sound s && negb (alarmSound s)).
Qed.

Lemma mount_timer_inv (rej : AudioCall → bool) : timer_inv (mount rej).
Proof. vm_compute. repeat split; congruence. Qed.

Lemma run_timer_inv (events : list Event) (s : Timer) :
  timer_inv s → timer_inv (run events s).
Proof.
  revert s. induction events as [|e events IH]; intros s Hinv; [done|].
  cbn [run foldl]. apply IH, exec_timer_inv, Hinv.
Qed.

(** *** The countdown *)

Lemma exec_tick_running (s : Timer) :
  timer_inv s → isRunning s = true →
  exec Tick s = after_countdown (setTimeLeft (timeLeft s - 1) s).
Proof.
  intros (Hrange & Hpos & Hitv) Hrun. cbn [exec].
  rewrite Hitv, Hrun, rerender_same_type by done. tsimpl.
  rewrite bool_decide_eq_true_2 by done.
  by rewrite bool_decide_eq_false_2 by lia.
Qed.

Lemma exec_tick_more (s : Timer) :
  timer_inv s → isRunning s = true → (1 < timeLeft s)%Z →
  exec Tick s = setTimeLeft (timeLeft s - 1) s.
Proof.
  intros Hinv Hrun Htime. rewrite exec_tick_running by done.
  destruct Hinv as (_ & _ & Hitv).
  unfold after_countdown. tsimpl. rewrite Hrun. cbn [andb].
  rewrite (proj2 (Z.ltb_lt _ _)) by lia.
  destruct s as [lofi alm flag ty t rn itv dev rej cs]. tsimpl. by subst.
Qed.

Lemma exec_tick_last (s : Timer) :
  timer_inv s → isRunning s = true → timeLeft s = 1%Z →
  exec Tick s =
  zero_branch (with_interval false (zero_branch (with_interval false
    (setTimeLeft 0 s)))).
Proof.
  intros Hinv Hrun Htime. rewrite exec_tick_running by done.
  unfold after_countdown. tsimpl. by rewrite Hrun, Htime.
Qed.

(** Before the last tick each tick lowers the time left by one and does
    nothing else. *)
Lemma ticks_before_zero (j : nat) (s : Timer) :
  timer_inv s → isRunning s = true → (Z.of_nat j < timeLeft s)%Z →
  run (replicate j Tick) s = setTimeLeft (timeLeft s - Z.of_nat j) s.
Proof.
  revert s. induction j as [|j IH]; intros s Hinv Hrun Htime.
  - destruct s as [lofi alm flag ty t rn itv dev rej cs].
    cbn [replicate run foldl]. unfold setTimeLeft. tsimpl. f_equal. lia.
  - cbn [replicate run foldl]. rewrite exec_tick_more by (done || lia).
    pose proof Hinv as (Hrange & Hpos & Hitv).
    fold (run (replicate j Tick) (setTimeLeft (timeLeft s - 1) s)).
    rewrite IH; tsimpl; [|unfold timer_inv; tsimpl; repeat split;
                            (done || lia)|done|lia].
    unfold setTimeLeft. tsimpl. f_equal. lia.
Qed.

Lemma countdown_from (k : nat) (s : Timer) :
  timer_inv s → isRunning s = true → timeLeft s = Z.of_nat k →
  run (replicate k Tick) s =
  zero_branch (with_interval false (zero_branch (with_interval false
    (setTimeLeft 0 s)))).
Proof.
  intros Hinv Hrun Htime. pose proof Hinv as (Hrange & Hpos & Hitv).
  destruct k as [|k]; [specialize (Hpos Hrun); lia|].
  rewrite replicate_S_end. unfold run. rewrite foldl_app.
  fold (run (replicate k Tick) s).
  rewrite ticks_before_zero by (done || lia). cbn [foldl].
  rewrite exec_tick_last; tsimpl; [done| |done|lia].
  unfold timer_inv. tsimpl. repeat split; (done || lia).
Qed.

(** *** The finished timer *)

Lemma exec_at_zero (e : Event) (s : Timer) :
  timer_inv s → timeLeft s = 0%Z → keeps_mode (timerType s) e →
  timeLeft (exec e s) = 0%Z ∧ timerType (exec e s) = timerType s.
Proof.
  intros (Hrange & Hpos & Hitv) Hzero Hmode.
  assert (isRunning s = false) as Hrun
    by (destruct (isRunning s); [specialize (Hpos eq_refl); lia|done]).
  destruct e as [|p| | | |].
  - cbn [exec]. by rewrite Hitv, Hrun.
  - cbn [keeps_mode] in Hmode. subst p. by rewrite exec_select_same.
  - cbn [exec].
    destruct (togglePomodoroTimer_frame s) as (Htype & Htime & _).
    rewrite rerender_same_type by done.
    destruct (after_countdown_frame (togglePomodoroTimer s s))
      as (Htype' & Htime' & _).
    case_match; split; congruence.
  - cbn [exec].
    destruct (toggleLofiSound_frame s) as ((Htype & Htime & _) & _).
    rewrite rerender_same_type by done.
    destruct (after_countdown_frame (toggleLofiSound s s))
      as (Htype' & Htime' & _).
    case_match; split; congruence.
  - cbn [exec]. by destruct (sound s).
  - cbn [exec]. by destruct (sound s && negb (alarmSound s)).
Qed.

Lemma run_at_zero (events : list Event) (s : Timer) :
  timer_inv s → timeLeft s = 0%Z → Forall (keeps_mode (timerType s)) events →
  timeLeft (run events s) = 0%Z ∧ timerType (run events s) = timerType s.
Proof.
  revert s. induction events as [|e events IH]; intros s Hinv Hzero Hmode;
    [done|].
  apply Forall_cons in Hmode as [He Hmode].
  destruct (exec_at_zero e s Hinv Hzero He) as [Hzero' Htype].
  cbn [run foldl]. fold (run events (exec e s)).
  destruct (IH (exec e s)) as [? ?];
    [by apply exec_timer_inv|done|by rewrite Htype|].
  split; congruence.
Qed.

(** *** Pausing *)

Lemma exec_pause (s : Timer) :
  timer_inv s → isRunning s = true →
  exec TapStartPause s = with_interval false (setIsRunning false s).
Proof.
  intros (Hrange & Hpos & Hitv) Hrun. cbn [exec].
  assert (togglePomodoroTimer s s = setIsRunning false s) as ->.
  { unfold togglePomodoroTimer. by rewrite Hrun. }
  rewrite rerender_same_type by done. tsimpl.
  rewrite bool_decide_eq_false_2 by congruence. cbn [andb].
  unfold after_countdown. tsimpl.
  rewrite (proj2 (Z.eqb_neq _ _)); [done|]. specialize (Hpos Hrun). lia.
Qed.

Lemma ticks_without_interval (n : nat) (s : Timer) :
  interval s = false → run (replicate n Tick) s = s.
Proof.
  intros Hitv. induction n as [|n IH]; [done|].
  cbn [replicate run foldl exec]. by rewrite Hitv.
Qed.

(** *** The mute flag *)






(** *** A start that the platform refuses *)

Lemma exec_start_rejected (s : Timer) :
  isRunning s = false → sound s = true → isLofiPlaying s = false →
  rejects s LofiPlay = true →
  exec TapStartPause s =
  snd (audio LofiPlay (if alarmSound s then snd (audio AlarmStop s) else s)).
Proof.
  intros Hrun Hsound Hflag Hrej. cbn [exec].
  assert (togglePomodoroTimer s s =
          snd (audio LofiPlay
                 (if alarmSound s then snd (audio AlarmStop s) else s))) as ->.
  { destruct s as [lofi alm flag ty t rn itv dev rej cs]. tsimpl. subst.
    unfold togglePomodoroTimer. tsimpl. destruct alm; tsimpl; by rewrite Hrej. }
  rewrite rerender_same_type by (by destruct (alarmSound s)).
  by rewrite !bool_decide_eq_true_2 by (by destruct (alarmSound s)).
Qed.

(** *** The timer between events *)

(** X12 (effects 2 and 3, togglePomodoroTimer).  Whatever happens after
    mount, between events the time left lies between zero and the initial
    value of the selected mode, the timer is running only with time left,
    and an interval is armed exactly while it is running: the time never
    goes below zero and no tick arrives while the timer is paused. *)
Theorem timer_runs_only_with_time_left
    (rej : AudioCall → bool) (events : list Event) :
  timer_inv (run events (mount rej)).
Proof. apply run_timer_inv, mount_timer_inv. Qed.

(** X13 (effect 3).  A running timer with [k] seconds left counts down:
    each of the first [k - 1] ticks lowers the time left by one and does
    nothing else; the [k]-th tick brings it to zero, stops the timer,
    lowers the mute flag if the background music is loaded, and makes the
    calls of the zero branch twice, because the effect runs again for the
    render in which [isRunning] has become false. *)
Theorem countdown_ends_at_zero_and_rings_twice
    (rej : AudioCall → bool) (events : list Event) (k : nat) :
  let s := run events (mount rej) in
  isRunning s = true → timeLeft s = Z.of_nat k →
  (∀ j, j < k →
     run (replicate j Tick) s = setTimeLeft (Z.of_nat (k - j)) s)
  ∧ let s' := run (replicate k Tick) s in
    timeLeft s' = 0%Z ∧ isRunning s' = false ∧ interval s' = false
    ∧ timerType s' = timerType s
    ∧ isLofiPlaying s' = (if sound s then false else isLofiPlaying s)
    ∧ calls s' = calls s ++ ring s ++ ring s.
Proof.
  intros s Hrun Htime.
  assert (Hinv : timer_inv s) by apply run_timer_inv, mount_timer_inv.
  split.
  - intros j Hj. rewrite ticks_before_zero by (done || lia).
    f_equal. lia.
  - cbv zeta. rewrite (countdown_from k) by done.
    rewrite !zero_branch_spec. tsimpl. unfold ring. tsimpl.
    rewrite <- app_assoc. by destruct (sound s).
Qed.

Lemma countdown_ends_at_zero_and_rings_twice_witness :
  let s := run sample_session (mount no_rejects) in
  timeLeft s = 300%Z
  ∧ timeLeft (run (replicate 300 Tick) s) = 0%Z
  ∧ calls (run (replicate 300 Tick) s)
    = calls s ++ [AlarmReplay; LofiPause; AlarmReplay; LofiPause].
Proof.
  destruct (countdown_ends_at_zero_and_rings_twice
              no_rejects sample_session 300)
    as (_ & Hzero & _ & _ & _ & _ & Hcalls);
    [by vm_compute..|].
  cbv zeta. split; [by vm_compute|]. split; [exact Hzero|exact Hcalls].
Defined.

(** X14 (effect 3, togglePomodoroTimer, the mode buttons).  A timer that
    has reached zero stays there, stopped, whatever is tapped, as long as
    no other mode is chosen: the start button does not restart it, and
    the button of the mode already selected does nothing. *)
Theorem finished_timer_needs_another_mode
    (rej : AudioCall → bool) (events more : list Event) :
  let s := run events (mount rej) in
  timeLeft s = 0%Z → Forall (keeps_mode (timerType s)) more →
  let s' := run more s in
  timeLeft s' = 0%Z ∧ isRunning s' = false ∧ timerType s' = timerType s.
Proof.
  intros s Hzero Hmode s'.
  assert (Hinv : timer_inv s) by apply run_timer_inv, mount_timer_inv.
  destruct (run_at_zero more s Hinv Hzero Hmode) as [Hzero' Htype].
  repeat split; try done.
  destruct (run_timer_inv more s Hinv) as (_ & Hpos & _).
  fold s' in Hpos, Hzero'.
  destruct (isRunning s'); [specialize (Hpos eq_refl); lia|done].
Qed.

Lemma finished_timer_needs_another_mode_witness :
  let s := run (sample_session ++ replicate 300 Tick) (mount no_rejects) in
  let s' := run [TapStartPause; Select short; TapMute; Tick] s in
  timeLeft s' = 0%Z ∧ isRunning s' = false ∧ timerType s' = short.
Proof.
  apply (finished_timer_needs_another_mode
           no_rejects (sample_session ++ replicate 300 Tick)
           [TapStartPause; Select short; TapMute; Tick]).
  - by vm_compute.
  - vm_compute. by repeat constructor.
Defined.

(** X15 (the mode buttons, effect 2, effect 3).  Choosing another mode
    sets the time left to the initial value of that mode, stops the timer
    and clears the interval, and does nothing else: no call is made on a
    sound and the mute flag is left as it is. *)
Theorem choosing_another_mode_resets_silently
    (rej : AudioCall → bool) (events : list Event) (p : TimerType) :
  let s := run events (mount rej) in
  p ≠ timerType s →
  exec (Select p) s =
  with_interval false (setIsRunning false (setTimeLeft (initialValue p)
    (setTimerType p s))).
Proof.
  intros s Hp. apply exec_select_other; [|done].
  apply run_timer_inv, mount_timer_inv.
Qed.

Lemma choosing_another_mode_resets_silently_witness :
  let s := run sample_session (mount no_rejects) in
  exec (Select long) s =
  with_interval false (setIsRunning false (setTimeLeft (initialValue long)
    (setTimerType long s))).
Proof.
  apply (choosing_another_mode_resets_silently no_rejects sample_session long).
  by vm_compute.
Defined.


(** X17 (togglePomodoroTimer).  When the background music has to be
    resumed and the platform rejects that, the start is lost: the handler
    ends at the rejection, before [setIsRunning], so the timer stays
    stopped with its time, and the flag stays down. *)
Theorem rejected_resume_loses_the_start (s : Timer) :
  isRunning s = false → sound s = true → isLofiPlaying s = false →
  rejects s LofiPlay = true →
  let s' := exec TapStartPause s in
  isRunning s' = false ∧ timeLeft s' = timeLeft s ∧ interval s' = interval s
  ∧ isLofiPlaying s' = false ∧ last (calls s') = Some LofiPlay.
Proof.
  intros Hrun Hsound Hflag Hrej. cbv zeta.
  rewrite exec_start_rejected by done.
  destruct (alarmSound s); tsimpl; by rewrite last_snoc.
Qed.

Lemma rejected_resume_loses_the_start_witness :
  let s := run [LofiLoaded; TapMute] (mount rejects_play) in
  isRunning (exec TapStartPause s) = false.
Proof.
  apply (rejected_resume_loses_the_start
           (run [LofiLoaded; TapMute] (mount rejects_play)));
    by vm_compute.
Defined.

(** X18 (togglePomodoroTimer, effect 3).  Pausing a running timer stops
    it where it is: the running flag is lowered and the interval cleared,
    nothing else changes, and no later tick moves the time. *)
Theorem pause_freezes_the_countdown
    (rej : AudioCall → bool) (events : list Event) (n : nat) :
  let s := run events (mount rej) in
  isRunning s = true →
  exec TapStartPause s = with_interval false (setIsRunning false s)
  ∧ run (replicate n Tick) (exec TapStartPause s) = exec TapStartPause s.
Proof.
  intros s Hrun.
  assert (Hinv : timer_inv s) by apply run_timer_inv, mount_timer_inv.
  rewrite exec_pause by done. split; [done|].
  by apply ticks_without_interval.
Qed.

Lemma pause_freezes_the_countdown_witness :
  let s := run sample_session (mount no_rejects) in
  exec TapStartPause s = with_interval false (setIsRunning false s)
  ∧ run (replicate 5 Tick) (exec TapStartPause s) = exec TapStartPause s.
Proof.
  apply (pause_freezes_the_countdown no_rejects sample_session 5).
  by vm_compute.
Defined.

End TimerFacts.
